(** * symlink-tree: a shallow embedding of [bin/symlink-tree.py]

    The script walks a directory, renders the symbolic links it finds as a
    tree and prints how many it has shown.  Its two recursive functions,
    [has_symlinks_recursive] and [build_symlink_tree], and [main] are
    embedded below over an explicit model of the file system the script
    queries through [pathlib] (Python 3.12, as the script's first line
    asks for).

    The file system is a finite tree of files, links and directories and
    does not change during a run.  Paths are lists of components; a lookup
    follows links as the kernel does, up to a bound, and fails with the
    errno the kernel would give.  The functions take paths, as in the
    source, and a bound on the depth of their recursion ([fuel]); that the
    bound is never the reason for a result is part of what is proved. *)

From Stdlib Require Import String Ascii ZArith Lia Bool Arith List.
From Stdlib Require Import Permutation Sorted.
Import ListNotations.

Set Warnings "-register-all".
Local Open Scope list_scope.

(** ** Errors

    Every failing system call surfaces in Python as an [OSError] carrying an
    errno; [PermissionError] is the subclass for [EACCES].  [ValueError] is
    what [Path.relative_to] raises. *)

Inductive errno : Type := EACCES | ENOENT | ENOTDIR | ELOOP | EINVAL | EIO.

Inductive exn : Type :=
| OSError (e : errno)
| ValueError.

Definition is_PermissionError (e : errno) : bool :=
  match e with EACCES => true | _ => false end.

(** [pathlib._ignore_error]: the errnos that [exists], [is_dir] and
    [is_symlink] turn into [False] instead of re-raising (EBADF cannot arise
    from a path lookup and is left out of [errno]). *)
Definition ignore_error (e : errno) : bool :=
  match e with ENOENT | ENOTDIR | ELOOP => true | _ => false end.

(** ** Paths and the file system *)

(** An absolute path, as the list of its components below [/]. *)
Definition path : Type := list string.

(** A path as stored in a link or typed by the user: absolute or relative. *)
Record raw_path : Type := RawPath { is_absolute : bool; parts : list string }.

(** A directory is usable, or closed to the caller (mode 000 or another
    user's 700: neither listing it nor looking a name up in it is
    permitted, [EACCES]), or failing on every access (an I/O error, [EIO]).
    The directory itself can still be [stat]ed through its parent.
    Directories that may be listed but not searched, or searched but not
    listed, are not modelled. *)
Inductive dir_state : Type := Accessible | Denied | Faulty.

Inductive node : Type :=
| File
| Symlink (target : raw_path)
| Dir (st : dir_state) (entries : list (string * node)).

Fixpoint assoc (k : string) (l : list (string * node)) : option node :=
  match l with
  | [] => None
  | (k', v) :: l' => if String.eqb k k' then Some v else assoc k l'
  end.

(** The node stored at a canonical location (no link is followed). *)
Fixpoint lookup_loc (n : node) (loc : path) : option node :=
  match loc with
  | [] => Some n
  | c :: loc' =>
      match n with
      | Dir _ es =>
          match assoc c es with
          | Some n' => lookup_loc n' loc'
          | None => None
          end
      | _ => None
      end
  end.

(** The kernel follows at most this many links in one path lookup. *)
Definition MAXSYMLINKS : nat := 40.

Definition special_name (c : string) : bool :=
  String.eqb c "." || String.eqb c "..".

(** Path lookup.  [loc] is the canonical location of the directory reached
    so far, [rest] the components still to be looked up, [budget] the number
    of links that may still be followed.  With [follow = false] a link in
    the last position is returned and not followed ([lstat]).  The result
    carries the budget left, the canonical location and the node found. *)
Fixpoint walk (fs : node) (follow : bool) (budget : nat) {struct budget}
  : path -> list string -> errno + (nat * path * node) :=
  fix go (loc : path) (rest : list string) {struct rest}
    : errno + (nat * path * node) :=
    match rest with
    | [] =>
        match lookup_loc fs loc with
        | Some n => inr (budget, loc, n)
        | None => inl ENOENT
        end
    | c :: rest' =>
        match lookup_loc fs loc with
        | Some (Dir Accessible es) =>
            if String.eqb c "." then go loc rest'
            else if String.eqb c ".." then go (removelast loc) rest'
            else
              match assoc c es with
              | None => inl ENOENT
              | Some File =>
                  match rest' with
                  | [] => inr (budget, loc ++ [c], File)
                  | _ :: _ => inl ENOTDIR
                  end
              | Some (Dir _ _) => go (loc ++ [c]) rest'
              | Some (Symlink t) =>
                  match rest', follow with
                  | [], false => inr (budget, loc ++ [c], Symlink t)
                  | _, _ =>
                      match budget with
                      | O => inl ELOOP
                      | S b =>
                          walk fs follow b
                            (if is_absolute t then [] else loc)
                            (parts t ++ rest')
                      end
                  end
              end
        | Some (Dir Denied _) => inl EACCES
        | Some (Dir Faulty _) => inl EIO
        | Some _ => inl ENOTDIR
        | None => inl ENOENT
        end
    end.

(** [os.stat] and [os.lstat] of an absolute path. *)
Definition os_stat (fs : node) (p : path) : errno + node :=
  match walk fs true MAXSYMLINKS [] p with
  | inl e => inl e
  | inr (_, _, n) => inr n
  end.

Definition os_lstat (fs : node) (p : path) : errno + node :=
  match walk fs false MAXSYMLINKS [] p with
  | inl e => inl e
  | inr (_, _, n) => inr n
  end.

(** [Path.exists], [Path.is_dir], [Path.is_symlink] (pathlib 3.12): the
    [stat] is attempted, ignorable errors answer [False], others are
    raised again. *)
Definition swallow (r : errno + bool) : errno + bool :=
  match r with
  | inl e => if ignore_error e then inr false else inl e
  | inr b => inr b
  end.

Definition path_exists (fs : node) (p : path) : errno + bool :=
  swallow match os_stat fs p with inl e => inl e | inr _ => inr true end.

Definition is_dir (fs : node) (p : path) : errno + bool :=
  swallow match os_stat fs p with
          | inl e => inl e
          | inr (Dir _ _) => inr true
          | inr _ => inr false
          end.

Definition is_symlink (fs : node) (p : path) : errno + bool :=
  swallow match os_lstat fs p with
          | inl e => inl e
          | inr (Symlink _) => inr true
          | inr _ => inr false
          end.

(** The names a directory holds: one entry per name (in the association
    list a later binding of a name is shadowed by the first), and never the
    special entries [.] and [..]. *)
Definition entry_names (es : list (string * node)) : list string :=
  filter (fun c => negb (special_name c)) (nodup string_dec (map fst es)).

(** [os.listdir]. *)
Definition os_listdir (fs : node) (p : path) : errno + list string :=
  match os_stat fs p with
  | inl e => inl e
  | inr (Dir Accessible es) => inr (entry_names es)
  | inr (Dir Denied _) => inl EACCES
  | inr (Dir Faulty _) => inl EIO
  | inr _ => inl ENOTDIR
  end.

(** [Path.iterdir]: the children of [p], as paths. *)
Definition iterdir (fs : node) (p : path) : errno + list path :=
  match os_listdir fs p with
  | inl e => inl e
  | inr names => inr (map (fun c => p ++ [c]) names)
  end.

(** [Path.readlink]. *)
Definition readlink (fs : node) (p : path) : errno + raw_path :=
  match os_lstat fs p with
  | inl e => inl e
  | inr (Symlink t) => inr t
  | inr _ => inl EINVAL
  end.

(** [Path.absolute]: a relative path is taken from the working directory. *)
Definition absolute (cwd : path) (p : raw_path) : path :=
  if is_absolute p then parts p else cwd ++ parts p.

(** [Path.relative_to]: [p] without the prefix [base], [ValueError] when
    [base] is not a prefix. *)
Fixpoint relative_to (p base : path) {struct base} : option path :=
  match base with
  | [] => Some p
  | b :: base' =>
      match p with
      | c :: p' => if String.eqb c b then relative_to p' base' else None
      | [] => None
      end
  end.

(** [Path.name] *)
Definition name (p : path) : string := last p EmptyString.

(** ** Sorting

    [sorted(..., key=lambda e: (not e.is_dir(), e.name.lower()))].  Names are
    modelled as ASCII strings, on which [str.lower] maps [A-Z] to [a-z] and
    [str] comparison is lexicographic on character codes. *)

Definition lower_ascii (c : ascii) : ascii :=
  let n := nat_of_ascii c in
  if (65 <=? n) && (n <=? 90) then ascii_of_nat (n + 32) else c.

Fixpoint lower (s : string) : string :=
  match s with
  | EmptyString => EmptyString
  | String c s' => String (lower_ascii c) (lower s')
  end.

Fixpoint str_leb (a b : string) : bool :=
  match a, b with
  | EmptyString, _ => true
  | String _ _, EmptyString => false
  | String x a', String y b' =>
      if nat_of_ascii x <? nat_of_ascii y then true
      else if nat_of_ascii y <? nat_of_ascii x then false
      else str_leb a' b'
  end.

(** The sort key of an entry and the order of Python tuples on it
    ([False < True]). *)
Definition sort_key : Type := bool * string.

Definition key_leb (k1 k2 : sort_key) : bool :=
  match fst k1, fst k2 with
  | false, true => true
  | true, false => false
  | _, _ => str_leb (snd k1) (snd k2)
  end.

(** A stable sort: an element goes in front of the first element whose key
    is not smaller than its own, so equal keys keep their input order, as
    with Python's [sorted]. *)
Fixpoint insert_by_key (x : sort_key * path) (l : list (sort_key * path))
  : list (sort_key * path) :=
  match l with
  | [] => [x]
  | y :: l' =>
      if key_leb (fst x) (fst y) then x :: y :: l'
      else y :: insert_by_key x l'
  end.

Fixpoint sort_by_key (l : list (sort_key * path)) : list (sort_key * path) :=
  match l with
  | [] => []
  | x :: l' => insert_by_key x (sort_by_key l')
  end.

(** The keys are computed first, for every entry in listing order; an
    [is_dir] that raises makes the whole [sorted] call raise. *)
Fixpoint keyed (fs : node) (es : list path) : errno + list (sort_key * path) :=
  match es with
  | [] => inr []
  | e :: es' =>
      match is_dir fs e with
      | inl err => inl err
      | inr d =>
          match keyed fs es' with
          | inl err => inl err
          | inr ks => inr ((negb d, lower (name e), e) :: ks)
          end
      end
  end.

(** Lines 82-84: [sorted(current_dir.iterdir(), key=...)]. *)
Definition sorted_entries (fs : node) (current_dir : path) : errno + list path :=
  match iterdir fs current_dir with
  | inl e => inl e
  | inr es =>
      match keyed fs es with
      | inl e => inl e
      | inr ks => inr (map snd (sort_by_key ks))
      end
  end.

(** ** The report tree

    What [parent_tree.add] attaches.  A link label holds the entry's name,
    the link's stored target (the text after [->] is rendered from it and
    from the entry's parent, lines 102-111, and has no bearing on what is
    emitted) and the broken flag; a directory label is the name, shown with
    a trailing slash. *)

Inductive placeholder : Type :=
| PermissionDenied
| ErrorOther (e : errno).

Inductive report : Type :=
| LinkEntry (nm : string) (target : raw_path) (broken : bool)
| LinkError (nm : string) (e : errno)
| DirectoryNode (nm : string) (children : list report)
| ErrorPlaceholder (msg : placeholder).

(** ** Depth tests *)

(** [max_depth is not None and d > max_depth] *)
Definition beyond (max_depth : option Z) (d : Z) : bool :=
  match max_depth with
  | None => false
  | Some m => (d >? m)%Z
  end.

(** [max_depth is None or d <= max_depth] *)
Definition within (max_depth : option Z) (d : Z) : bool :=
  match max_depth with
  | None => true
  | Some m => (d <=? m)%Z
  end.

(** [entry.is_dir() and not entry.is_symlink()] *)
Definition is_plain_dir (fs : node) (entry : path) : errno + bool :=
  match is_dir fs entry with
  | inl e => inl e
  | inr false => inr false
  | inr true =>
      match is_symlink fs entry with
      | inl e => inl e
      | inr s => inr (negb s)
      end
  end.

(** ** [has_symlinks_recursive]

    [fuel] bounds the depth of the recursion; [None] means it ran out.
    Every exception raised inside the [try] ends the loop and the function
    returns [False]. *)

Section Probe.
Variable fs : node.
Variable max_depth : option Z.
Variable current_depth : Z.
Variable recur : path -> option bool.

(** The [for entry in path.iterdir()] loop, lines 43-50. *)
Fixpoint probe_entries (es : list path) : option bool :=
  match es with
  | [] => Some false
  | entry :: es' =>
      match is_symlink fs entry with
      | inl _ => Some false
      | inr sl =>
          if sl && within max_depth current_depth then Some true
          else
            match is_plain_dir fs entry with
            | inl _ => Some false
            | inr true =>
                match recur entry with
                | None => None
                | Some true => Some true
                | Some false => probe_entries es'
                end
            | inr false => probe_entries es'
            end
      end
  end.
End Probe.

Fixpoint has_symlinks_recursive (fs : node) (fuel : nat) (p : path)
    (current_depth : Z) (max_depth : option Z) : option bool :=
  match fuel with
  | O => None
  | S fuel' =>
      if beyond max_depth current_depth then Some false
      else
        match iterdir fs p with
        | inl _ => Some false
        | inr es =>
            probe_entries fs max_depth current_depth
              (fun entry =>
                 has_symlinks_recursive fs fuel' entry (current_depth + 1) max_depth)
              es
        end
  end.

(** ** [build_symlink_tree]

    The result is the exception that escaped, or the children attached to
    [parent_tree] together with the returned flag. *)

Definition outcome : Type := exn + (list report * bool).

Section Build.
Variable fs : node.
Variable cwd : path.
Variable root_dir : path.
Variable max_depth : option Z.
Variable probe : path -> option bool.
Variable recur : path -> option outcome.

(** Lines 119-125: [target.exists()] on the path read from the link; a
    relative [target] is looked up from the working directory. *)
Definition is_broken (target : raw_path) : bool :=
  match path_exists fs (absolute cwd target) with
  | inr e => negb e
  | inl _ => true
  end.

(** The [for entry in entries] loop, lines 92-146; [children] and [found]
    are [parent_tree.children] and [found_symlinks] so far.  A directory
    node that is added and then removed (lines 139-144) leaves
    [children] as it was. *)
Fixpoint build_entries (es : list path) (children : list report)
    (found : bool) : option outcome :=
  match es with
  | [] => Some (inr (children, found))
  | entry :: es' =>
      match is_symlink fs entry with
      | inl e => Some (inl (OSError e))
      | inr true =>
          match relative_to entry root_dir with
          | None => Some (inl ValueError)
          | Some rel =>
              if beyond max_depth (Z.of_nat (List.length rel))
              then build_entries es' children found
              else
                match readlink fs entry with
                | inr target =>
                    build_entries es'
                      (children ++ [LinkEntry (name entry) target (is_broken target)])
                      true
                | inl e =>
                    build_entries es' (children ++ [LinkError (name entry) e]) true
                end
          end
      | inr false =>
          match is_plain_dir fs entry with
          | inl e => Some (inl (OSError e))
          | inr false => build_entries es' children found
          | inr true =>
              match probe entry with
              | None => None
              | Some false => build_entries es' children found
              | Some true =>
                  match recur entry with
                  | None => None
                  | Some (inl e) => Some (inl e)
                  | Some (inr (sub, true)) =>
                      build_entries es'
                        (children ++ [DirectoryNode (name entry) sub]) true
                  | Some (inr (sub, false)) =>
                      build_entries es' children found
                  end
              end
          end
      end
  end.
End Build.

Fixpoint build_symlink_tree (fs : node) (cwd : path) (fuel : nat)
    (root_dir current_dir : path) (current_depth : Z) (max_depth : option Z)
  : option outcome :=
  match fuel with
  | O => None
  | S fuel' =>
      if beyond max_depth current_depth then Some (inr ([], false))
      else
        match sorted_entries fs current_dir with
        | inl e =>
            if is_PermissionError e
            then Some (inr ([ErrorPlaceholder PermissionDenied], false))
            else Some (inr ([ErrorPlaceholder (ErrorOther e)], false))
        | inr entries =>
            build_entries fs cwd root_dir max_depth
              (fun entry =>
                 has_symlinks_recursive fs fuel' entry (current_depth + 1) max_depth)
              (fun entry =>
                 build_symlink_tree fs cwd fuel' root_dir entry
                   (current_depth + 1) max_depth)
              entries [] false
        end
  end.

(** ** [Path.rglob("*")]

    pathlib 3.12 expands the pattern [**/*] in two stages: the recursive
    wildcard yields the start directory and every directory below it that
    is not a link, and the final [*] yields every child of each of those.
    A directory that cannot be listed contributes nothing. *)

(** [DirEntry.is_dir(follow_symlinks=False)] *)
Definition entry_is_dir_nofollow (fs : node) (p : path) : errno + bool :=
  swallow match os_lstat fs p with
          | inl e => inl e
          | inr (Dir _ _) => inr true
          | inr _ => inr false
          end.

Section Glob.
Variable fs : node.
Variable recur : path -> option (errno + list path).

Fixpoint subdirectories (es : list path) : option (errno + list path) :=
  match es with
  | [] => Some (inr [])
  | e :: es' =>
      match entry_is_dir_nofollow fs e with
      | inl err => Some (inl err)
      | inr false => subdirectories es'
      | inr true =>
          match recur e with
          | None => None
          | Some (inl err) => Some (inl err)
          | Some (inr ds) =>
              match subdirectories es' with
              | None => None
              | Some (inl err) => Some (inl err)
              | Some (inr ds') => Some (inr (ds ++ ds'))
              end
          end
      end
  end.
End Glob.

Fixpoint iterate_directories (fs : node) (fuel : nat) (p : path)
  : option (errno + list path) :=
  match fuel with
  | O => None
  | S fuel' =>
      match iterdir fs p with
      | inl _ => Some (inr [p])
      | inr es =>
          match subdirectories fs (iterate_directories fs fuel') es with
          | None => None
          | Some (inl err) => Some (inl err)
          | Some (inr ds) => Some (inr (p :: ds))
          end
      end
  end.

Definition select_children (fs : node) (start : path) : list path :=
  match iterdir fs start with
  | inl _ => []
  | inr es => es
  end.

Definition rglob (fs : node) (fuel : nat) (p : path) : option (errno + list path) :=
  match iterate_directories fs fuel p with
  | None => None
  | Some (inl e) => Some (inl e)
  | Some (inr ds) => Some (inr (flat_map (select_children fs) ds))
  end.

(** ** [main] *)

(** Lines 209-214: the sum over the paths [rglob] yields. *)
Fixpoint count_symlinks (fs : node) (target : path) (depth : option Z)
    (ps : list path) : exn + nat :=
  match ps with
  | [] => inr 0
  | p :: ps' =>
      match is_symlink fs p with
      | inl e => inl (OSError e)
      | inr false => count_symlinks fs target depth ps'
      | inr true =>
          let counted (one : nat) :=
            match count_symlinks fs target depth ps' with
            | inl e => inl e
            | inr n => inr (one + n)
            end in
          match depth with
          | None => counted 1
          | Some d =>
              match relative_to p target with
              | None => inl ValueError
              | Some rel =>
                  if (Z.of_nat (List.length rel) <=? d)%Z then counted 1
                  else counted 0
              end
          end
      end
  end.

(** What [console.print] is called with. *)
Inductive output : Type :=
| PathDoesNotExist (target : path)
| NotADirectory (target : path)
| NoSymlinksFound (target : path)
| PrintedTree (target : path) (depth_info : option Z) (children : list report)
| SymlinksShown (n : nat).

(** A run of the script: what it printed, and the value [main] returned or
    the exception that escaped it. *)
Record run : Type := Run { printed : list output; returned : exn + Z }.


(** [depth_info]: shown when [args.depth] is truthy. *)
Definition depth_info (depth : option Z) : option Z :=
  match depth with
  | Some d => if (d =? 0)%Z then None else Some d
  | None => None
  end.

(** [args_path] is [Path(args.path).expanduser()]; [args_depth] is
    [args.depth]. *)
Definition main (fs : node) (cwd : path) (fuel : nat) (args_path : raw_path)
    (args_depth : option Z) : option run :=
  let target := absolute cwd args_path in
  match path_exists fs target with
  | inl e => Some (Run [] (inl (OSError e)))
  | inr false => Some (Run [PathDoesNotExist target] (inr 1%Z))
  | inr true =>
      match is_dir fs target with
      | inl e => Some (Run [] (inl (OSError e)))
      | inr false => Some (Run [NotADirectory target] (inr 1%Z))
      | inr true =>
          match build_symlink_tree fs cwd fuel target target 0 args_depth with
          | None => None
          | Some (inl e) => Some (Run [] (inl e))
          | Some (inr (children, false)) =>
              Some (Run [NoSymlinksFound target] (inr 0%Z))
          | Some (inr (children, true)) =>
              let tree := PrintedTree target (depth_info args_depth) children in
              match rglob fs fuel target with
              | None => None
              | Some (inl e) => Some (Run [tree] (inl (OSError e)))
              | Some (inr ps) =>
                  match count_symlinks fs target args_depth ps with
                  | inl e => Some (Run [tree] (inl e))
                  | inr n => Some (Run [tree; SymlinksShown n] (inr 0%Z))
                  end
              end
          end
      end
  end.

(** ** Measures and views used in the statements *)

(** The height of the directory hierarchy below a node. *)
Fixpoint height (n : node) : nat :=
  match n with
  | Dir _ es =>
      S ((fix heights (l : list (string * node)) : nat :=
            match l with
            | [] => 0
            | (_, c) :: l' => Nat.max (height c) (heights l')
            end) es)
  | _ => 0
  end.

(** The height of the directory a path leads to ([0] when it leads to none). *)
Definition dir_height (fs : node) (p : path) : nat :=
  match os_stat fs p with
  | inr n => height n
  | inl _ => 0
  end.

(** [e] is one of the paths a listing of [cur] yields. *)
Definition listed (fs : node) (cur e : path) : Prop :=
  exists es c,
    os_stat fs cur = inr (Dir Accessible es) /\
    In c (entry_names es) /\ e = cur ++ [c].

(** What one pass of the loop body of [build_symlink_tree] does for one
    entry: it runs out of fuel, lets an exception escape, or attaches the
    given nodes (none or one) to [parent_tree]. *)
Inductive contribution : Type :=
| Diverged
| Raised (e : exn)
| Emitted (nodes : list report).

Definition entry_contribution (fs : node) (cwd root_dir : path)
    (max_depth : option Z) (probe : path -> option bool)
    (recur : path -> option outcome) (entry : path) : contribution :=
  match is_symlink fs entry with
  | inl e => Raised (OSError e)
  | inr true =>
      match relative_to entry root_dir with
      | None => Raised ValueError
      | Some rel =>
          if beyond max_depth (Z.of_nat (List.length rel)) then Emitted []
          else
            match readlink fs entry with
            | inr target =>
                Emitted [LinkEntry (name entry) target (is_broken fs cwd target)]
            | inl e => Emitted [LinkError (name entry) e]
            end
      end
  | inr false =>
      match is_plain_dir fs entry with
      | inl e => Raised (OSError e)
      | inr false => Emitted []
      | inr true =>
          match probe entry with
          | None => Diverged
          | Some false => Emitted []
          | Some true =>
              match recur entry with
              | None => Diverged
              | Some (inl e) => Raised e
              | Some (inr (sub, true)) => Emitted [DirectoryNode (name entry) sub]
              | Some (inr (sub, false)) => Emitted []
              end
          end
      end
  end.

Definition nonempty {A : Type} (l : list A) : bool :=
  match l with [] => false | _ :: _ => true end.

(** The links of a report tree, each as the list of names leading to it
    from the top, and the same for its directory nodes. *)
Fixpoint link_paths (r : report) : list path :=
  match r with
  | LinkEntry nm _ _ => [[nm]]
  | LinkError nm _ => [[nm]]
  | DirectoryNode nm cs =>
      map (cons nm)
        ((fix go (l : list report) : list path :=
            match l with
            | [] => []
            | c :: l' => link_paths c ++ go l'
            end) cs)
  | ErrorPlaceholder _ => []
  end.

Definition links_of (cs : list report) : list path := flat_map link_paths cs.

Fixpoint dir_paths (r : report) : list path :=
  match r with
  | DirectoryNode nm cs =>
      [nm] ::
      map (cons nm)
        ((fix go (l : list report) : list path :=
            match l with
            | [] => []
            | c :: l' => dir_paths c ++ go l'
            end) cs)
  | _ => []
  end.

Definition dirs_of (cs : list report) : list path := flat_map dir_paths cs.

(** Whether an error placeholder occurs anywhere in a report tree. *)
Fixpoint has_placeholder (r : report) : bool :=
  match r with
  | ErrorPlaceholder _ => true
  | DirectoryNode _ cs =>
      (fix go (l : list report) : bool :=
         match l with
         | [] => false
         | c :: l' => has_placeholder c || go l'
         end) cs
  | _ => false
  end.

Definition any_placeholder (cs : list report) : bool := existsb has_placeholder cs.

(** The number of link labels in a report tree. *)
Definition count_links (cs : list report) : nat := List.length (links_of cs).

(** An entry that is neither a link nor a directory (a regular file). *)
Definition is_other (fs : node) (e : path) : bool :=
  match is_symlink fs e, is_dir fs e with
  | inr false, inr false => true
  | _, _ => false
  end.








(** [visible_link fs cur lp]: [lp] leads from the directory [cur] to a link,
    through directories that are not links, and every directory on the way
    ([cur] included) can be listed and its listing sorted. *)
Inductive visible_link (fs : node) : path -> path -> Prop :=
| link_here cur c es :
    sorted_entries fs cur = inr es ->
    In (cur ++ [c]) es ->
    is_symlink fs (cur ++ [c]) = inr true ->
    visible_link fs cur [c]
| link_below cur s lp es :
    sorted_entries fs cur = inr es ->
    In (cur ++ [s]) es ->
    is_plain_dir fs (cur ++ [s]) = inr true ->
    visible_link fs (cur ++ [s]) lp ->
    visible_link fs cur (s :: lp).

(** [d] lies at or below [p]. *)
Definition below (p d : path) : Prop := exists s, d = p ++ s.


(** The shapes an emitted list of nodes can have, with what the code
    tested before attaching it. *)
Inductive emission (fs : node) (cwd root : path) (m : option Z)
    (recur : path -> option outcome) (e : path) : list report -> Prop :=
| emit_nothing : emission fs cwd root m recur e []
| emit_link rel target :
    is_symlink fs e = inr true ->
    relative_to e root = Some rel ->
    within m (Z.of_nat (List.length rel)) = true ->
    readlink fs e = inr target ->
    emission fs cwd root m recur e
      [LinkEntry (name e) target (is_broken fs cwd target)]
| emit_link_error rel err :
    is_symlink fs e = inr true ->
    relative_to e root = Some rel ->
    within m (Z.of_nat (List.length rel)) = true ->
    readlink fs e = inl err ->
    emission fs cwd root m recur e [LinkError (name e) err]
| emit_directory sub :
    is_symlink fs e = inr false ->
    is_plain_dir fs e = inr true ->
    recur e = Some (inr (sub, true)) ->
    emission fs cwd root m recur e [DirectoryNode (name e) sub].

(** Every listing that succeeds can be sorted: no [is_dir] of a listed
    entry raises. *)
Definition sortable (fs : node) : Prop :=
  forall cur es, iterdir fs cur = inr es -> exists es', sorted_entries fs cur = inr es'.

(** What one path adds to the summary count. *)
Definition counted (fs : node) (target : path) (depth : option Z) (p : path) : nat :=
  match is_symlink fs p with
  | inr true =>
      match depth with
      | None => 1
      | Some d =>
          match relative_to p target with
          | Some rel => if (Z.of_nat (List.length rel) <=? d)%Z then 1 else 0
          | None => 0
          end
      end
  | _ => 0
  end.

(** The summary count over the children of the directories [ds]. *)
Definition scan_total (fs : node) (target : path) (depth : option Z)
    (ds : list path) : nat :=
  list_sum (map (counted fs target depth) (flat_map (select_children fs) ds)).

(** What the re-scan counts below one entry of a directory: nothing unless
    the entry is a directory and no link. *)
Definition below_total (fs : node) (target : path) (depth : option Z)
    (fuel : nat) (e : path) : nat :=
  match is_plain_dir fs e with
  | inr true =>
      match iterate_directories fs fuel e with
      | Some (inr ds) => scan_total fs target depth ds
      | _ => 0
      end
  | _ => 0
  end.

(** No directory of the file system is closed or failing. *)
Fixpoint all_accessible (n : node) : bool :=
  match n with
  | Dir Accessible es =>
      (fix all (l : list (string * node)) : bool :=
         match l with
         | [] => true
         | (_, c) :: l' => all_accessible c && all l'
         end) es
  | Dir _ _ => false
  | _ => true
  end.

(** ** Example file systems *)

Local Open Scope string_scope.

Definition abs_path (l : list string) : raw_path := RawPath true l.
Definition rel_path (l : list string) : raw_path := RawPath false l.

(** The scenario of the specification: [/scan] holds an empty directory
    [a], a link [b -> /missing], a link [c -> a] and a directory [d] with
    a link [d/link -> /scan/c]. *)
Definition scenario_fs : node :=
  Dir Accessible
    [("scan", Dir Accessible
        [("a", Dir Accessible []);
         ("b", Symlink (abs_path ["missing"]));
         ("c", Symlink (rel_path ["a"]));
         ("d", Dir Accessible [("link", Symlink (abs_path ["scan"; "c"]))])])].

(** The nodes attached for [/scan] of the scenario when the script runs
    from [/]. *)
Definition scenario_children : list report :=
  [LinkEntry "c" (rel_path ["a"]) true;
   DirectoryNode "d" [LinkEntry "link" (abs_path ["scan"; "c"]) false];
   LinkEntry "b" (abs_path ["missing"]) true].

(** [/scan] holds a link [b -> /missing] and a directory [priv] that is
    closed to the caller and holds a link [k]. *)
Definition private_fs : node :=
  Dir Accessible
    [("scan", Dir Accessible
        [("b", Symlink (abs_path ["missing"]));
         ("priv", Dir Denied [("k", Symlink (abs_path ["missing"]))])])].

(** [/scan] holds a link [b -> /missing] and a directory [d] with a link
    [l -> /secret/x]; [/secret] is closed to the caller. *)
Definition secret_fs : node :=
  Dir Accessible
    [("scan", Dir Accessible
        [("b", Symlink (abs_path ["missing"]));
         ("d", Dir Accessible [("l", Symlink (abs_path ["secret"; "x"]))])]);
     ("secret", Dir Denied [("x", File)])].

(** [/scan] holds a link [x -> scan], relative: it points at [/scan/scan],
    which does not exist. *)
Definition dangling_fs : node :=
  Dir Accessible
    [("scan", Dir Accessible [("x", Symlink (rel_path ["scan"]))])].

(** A link that points at itself, one that points back at the directory it
    lies in, and a pair that point at each other. *)
Definition cyclic_fs : node :=
  Dir Accessible
    [("scan", Dir Accessible
        [("self", Symlink (rel_path ["self"]));
         ("up", Symlink (abs_path ["scan"]));
         ("sub", Dir Accessible
            [("ping", Symlink (abs_path ["scan"; "sub"; "pong"]));
             ("pong", Symlink (rel_path ["ping"]))])])].

Local Close Scope string_scope.

(** ** Further views of the walk *)

(** [probe_link fs cur lp]: [lp] leads from the directory [cur] to a link
    through directories that are not links, each of which ([cur] included)
    can be listed. *)
Inductive probe_link (fs : node) : path -> path -> Prop :=
| probe_here cur c es :
    iterdir fs cur = inr es ->
    In (cur ++ [c]) es ->
    is_symlink fs (cur ++ [c]) = inr true ->
    probe_link fs cur [c]
| probe_below cur s lp es :
    iterdir fs cur = inr es ->
    In (cur ++ [s]) es ->
    is_plain_dir fs (cur ++ [s]) = inr true ->
    probe_link fs (cur ++ [s]) lp ->
    probe_link fs cur (s :: lp).

(** Every depth the limit [m] admits, [m'] admits too. *)
Definition limit_le (m m' : option Z) : Prop :=
  forall x, within m x = true -> within m' x = true.

(** * The text helpers of [bin/list-agents-skills.py]

    A Python [str] is modelled as the list of its code points, so that
    [len], slicing and searching count what Python counts. *)

Definition char : Type := N.
Definition text : Type := list char.

Definition SPACE : char := 32%N.
Definition DOT : char := 46%N.

(** [len(s)], an [int]. *)
Definition len (s : text) : Z := Z.of_nat (List.length s).

(** The characters [str.split()] and [str.strip()] treat as white space:
    the ASCII controls 9-13 and 28-31, the space, and the Unicode spaces
    and separators. *)
Definition is_space (c : char) : bool :=
  ((9 <=? c) && (c <=? 13) || (28 <=? c) && (c <=? 32) ||
   (c =? 133) || (c =? 160) || (c =? 5760) ||
   (8192 <=? c) && (c <=? 8202) ||
   (c =? 8232) || (c =? 8233) || (c =? 8239) || (c =? 8287) ||
   (c =? 12288))%N.

(** [s.split()]: the maximal runs of characters that are not white space;
    [cur] is the run read so far. *)
Fixpoint split_from (cur : text) (s : text) : list text :=
  match s with
  | [] =>
      match cur with
      | [] => []
      | _ :: _ => [cur]
      end
  | c :: s' =>
      if is_space c then
        match cur with
        | [] => split_from [] s'
        | _ :: _ => cur :: split_from [] s'
        end
      else split_from (cur ++ [c]) s'
  end.

Definition split (s : text) : list text := split_from [] s.

(** [" ".join(words)] *)
Fixpoint join (words : list text) : text :=
  match words with
  | [] => []
  | [w] => w
  | w :: ws => w ++ SPACE :: join ws
  end.

(** [s[:k]] for an [int] [k]: a negative [k] counts from the end. *)
Definition slice_to (s : text) (k : Z) : text :=
  if (k <? 0)%Z then firstn (List.length s - Z.to_nat (- k)) s
  else firstn (Z.to_nat k) s.

(** [s.rfind(" ")]: the index of the last space, [-1] when there is none. *)
Fixpoint rfind_space_from (i : Z) (found : Z) (s : text) : Z :=
  match s with
  | [] => found
  | c :: s' =>
      rfind_space_from (i + 1) (if (c =? SPACE)%N then i else found) s'
  end.

Definition rfind_space (s : text) : Z := rfind_space_from 0 (-1) s.

Definition dots : text := [DOT; DOT; DOT].

(** Lines 111-114 and 134-137: cut [trunc] back to its last space, if that
    is not its first character, and append the dots. *)
Definition cut_at_word (trunc : text) : text :=
  let last_space := rfind_space trunc in
  (if (last_space >? 0)%Z then slice_to trunc last_space else trunc) ++ dots.

(** [format_description] *)
Definition format_description (description : text) (max_len : option Z) : text :=
  let desc := join (split description) in
  match max_len with
  | Some k =>
      if negb (k =? 0)%Z && (len desc >? k)%Z
      then cut_at_word (slice_to desc (k - 3))
      else desc
  | None => desc
  end.

(** Whether [c] matches the pattern letter whose lower and upper case are
    [lo] and [up], under [re.IGNORECASE]; the letter s also matches the old
    long s (code point 383). *)
Definition ci_letter (lo up c : char) : bool :=
  ((c =? lo) || (c =? up) || ((lo =? 115) && (c =? 383)))%N.

(** Whether [s] starts with [Use when], in any case. *)
Definition starts_use_when (s : text) : bool :=
  match s with
  | c1 :: c2 :: c3 :: c4 :: c5 :: c6 :: c7 :: c8 :: _ =>
      ci_letter 117%N 85%N c1 && ci_letter 115%N 83%N c2 && ci_letter 101%N 69%N c3 &&
      (c4 =? SPACE)%N &&
      ci_letter 119%N 87%N c5 && ci_letter 104%N 72%N c6 && ci_letter 101%N 69%N c7 &&
      ci_letter 110%N 78%N c8
  | _ => false
  end.

(** What is left of [s] from the first place where [Use when] starts. *)
Fixpoint from_use_when (s : text) : option text :=
  if starts_use_when s then Some s
  else
    match s with
    | [] => None
    | _ :: s' => from_use_when s'
    end.

(** [s] up to and including its first dot, when it has one. *)
Fixpoint through_dot (s : text) : option text :=
  match s with
  | [] => None
  | c :: s' =>
      if (c =? DOT)%N then Some [c]
      else
        match through_dot s' with
        | Some r => Some (c :: r)
        | None => None
        end
  end.

(** [re.search(r"Use when[^.]*\.", desc, re.IGNORECASE)]: the match starts
    where [Use when] first occurs and runs to the first dot after it; a
    first occurrence with no dot after it rules out every later one. *)
Definition search_use_when (desc : text) : option text :=
  match from_use_when desc with
  | Some rest =>
      match through_dot (skipn 8 rest) with
      | Some tail => Some (firstn 8 rest ++ tail)
      | None => None
      end
  | None => None
  end.

(** [extract_use_when] *)
Definition extract_use_when (description : text) (max_len : Z) : text :=
  let desc := join (split description) in
  let use_when :=
    match search_use_when desc with
    | Some m => m
    | None => desc
    end in
  if (len use_when >? max_len)%Z
  then cut_at_word (slice_to use_when max_len)
  else use_when.

Definition nonempty_text (l : list text) : bool :=
  match l with [] => false | _ :: _ => true end.

(** The loop of [_wrap_text], lines 221-229, and the flush of line 231. *)
Fixpoint wrap_words (width : Z) (words : list text) (lines : list text)
    (current_line : list text) (current_len : Z) : list text :=
  match words with
  | [] =>
      if nonempty_text current_line then lines ++ [join current_line]
      else lines
  | word :: rest =>
      if (current_len + len word + (if nonempty_text current_line then 1 else 0)
          <=? width)%Z
      then
        wrap_words width rest lines (current_line ++ [word])
          (current_len + (len word + (if (current_len >? 0)%Z then 1 else 0)))
      else
        wrap_words width rest
          (if nonempty_text current_line then lines ++ [join current_line]
           else lines)
          [word] (len word)
  end.

(** [_wrap_text] *)
Definition _wrap_text (t : text) (width : Z) : list text :=
  if (len t <=? width)%Z then [t]
  else
    let lines := wrap_words width (split t) [] [] 0 in
    if nonempty_text lines then lines else [t].

(** Code points of an ASCII string, for examples. *)
Fixpoint text_of (s : string) : text :=
  match s with
  | EmptyString => []
  | String c s' => N_of_ascii c :: text_of s'
  end.

(** ** Views of the text helpers *)

Definition no_space (w : text) : Prop := Forall (fun c => is_space c = false) w.

(** A word: not empty, no white space in it. *)
Definition is_word (w : text) : Prop := w <> [] /\ no_space w.

(** The lines of [_wrap_text] as groups of words; [cur] is the group being
    filled. *)
Fixpoint fill (width : Z) (words : list text) (cur : list text) : list (list text) :=
  match words with
  | [] => if nonempty_text cur then [cur] else []
  | w :: rest =>
      if (len (join cur) + len w + (if nonempty_text cur then 1 else 0) <=? width)%Z
      then fill width rest (cur ++ [w])
      else (if nonempty_text cur then [cur] else []) ++ fill width rest [w]
  end.

(** No group could have taken the first word of the next one. *)
Fixpoint greedy (width : Z) (groups : list (list text)) : Prop :=
  match groups with
  | [] => True
  | g1 :: tl =>
      match tl with
      | g2 :: _ =>
          forall w, hd_error g2 = Some w -> (width < len (join g1) + 1 + len w)%Z
      | [] => True
      end /\ greedy width tl
  end.

(** The texts the pattern [Use when[^.]*\.] matches, ignoring case. *)
Definition matches_use_when (m : text) : Prop :=
  exists h body,
    m = h ++ body ++ [DOT] /\ List.length h = 8 /\
    starts_use_when h = true /\ ~ In DOT body.

(** * The README section of [bin/update-readme-tree.py] *)

Module UpdateReadme.

Definition NL : char := 10%N.

Definition START_MARKER : text :=
  text_of "<!-- AGENTS-SKILLS-TREE:START -->" ++ NL :: text_of "```console" ++ [NL].

Definition END_MARKER : text :=
  text_of "```" ++ NL :: text_of "<!-- AGENTS-SKILLS-TREE:END -->".

Fixpoint starts_with (pat s : text) : bool :=
  match pat, s with
  | [], _ => true
  | p :: pat', c :: s' => (p =? c)%N && starts_with pat' s'
  | _ :: _, [] => false
  end.

(** The first place where [pat] occurs in [s]: what stands before it and
    what stands after it. *)
Fixpoint find_sub (pat s : text) : option (text * text) :=
  if starts_with pat s then Some ([], skipn (List.length pat) s)
  else
    match s with
    | [] => None
    | c :: s' =>
        match find_sub pat s' with
        | Some (before, after) => Some (c :: before, after)
        | None => None
        end
    end.

(** [re.search] of the start marker, anything (as little as possible, new
    lines included) and the end marker: the text before the match, the
    middle group, and the text after the match. *)
Definition search_section (content : text) : option (text * text * text) :=
  match find_sub START_MARKER content with
  | Some (before, rest) =>
      match find_sub END_MARKER rest with
      | Some (middle, after) => Some (before, middle, after)
      | None => None
      end
  | None => None
  end.

Fixpoint text_eqb (a b : text) : bool :=
  match a, b with
  | [], [] => true
  | x :: a', y :: b' => (x =? y)%N && text_eqb a' b'
  | _, _ => false
  end.

Inductive message : Type :=
| MarkersNotFound
| AlreadyUpToDate
| Updated
| ReadmeNotFound
| SourceNotFound
| TreeFailed
| CheckMarkersNotFound
| OutOfDate
| UpToDate.

(** [update_readme], over the content of the file as [read_text] gives it:
    the content the file has afterwards, the returned flag and the message
    printed. *)
Definition update_readme (readme_content tree_content : text)
    : text * bool * message :=
  match search_section readme_content with
  | None => (readme_content, false, MarkersNotFound)
  | Some (before, middle, after) =>
      let new_section := START_MARKER ++ tree_content ++ NL :: END_MARKER in
      if text_eqb (START_MARKER ++ middle ++ END_MARKER) new_section
      then (readme_content, false, AlreadyUpToDate)
      else (before ++ new_section ++ after, true, Updated)
  end.

(** [s.strip()] *)
Fixpoint lstrip (s : text) : text :=
  match s with
  | [] => []
  | c :: s' => if is_space c then lstrip s' else s
  end.

Definition rstrip (s : text) : text := rev (lstrip (rev s)).

Definition strip (s : text) : text := rstrip (lstrip s).

(** [main] of [update-readme-tree.py].  [readme] is the content of the
    README, [None] when the file does not exist; [src_exists] the answer
    of [src_path.exists()]; [stdout] what [list-agents-skills.py] printed,
    [None] when it failed.  The result is the content of the README
    afterwards, the exit status and the message. *)
Definition main (check : bool) (readme : option text) (src_exists : bool)
    (stdout : option text) : option text * Z * message :=
  match readme with
  | None => (readme, 1%Z, ReadmeNotFound)
  | Some readme_content =>
      if negb src_exists then (readme, 1%Z, SourceNotFound)
      else
        match stdout with
        | None => (readme, 1%Z, TreeFailed)
        | Some out =>
            let tree_content := strip out in
            if check then
              match search_section readme_content with
              | None => (readme, 1%Z, CheckMarkersNotFound)
              | Some (_, middle, _) =>
                  if negb (text_eqb (strip middle) tree_content)
                  then (readme, 1%Z, OutOfDate)
                  else (readme, 0%Z, UpToDate)
              end
            else
              let '(content, _, said) := update_readme readme_content tree_content in
              (Some content, 0%Z, said)
        end
  end.

(** A tree in which the end marker does not show up before its own place
    in the new section. *)
Definition clean (tree_content : text) : Prop :=
  find_sub END_MARKER (tree_content ++ NL :: END_MARKER) = Some (tree_content ++ [NL], []).

(** The texts the section pattern matches, with their middle group. *)
Definition matches_section (m middle : text) : Prop :=
  m = START_MARKER ++ middle ++ END_MARKER.

End UpdateReadme.

(** * Proofs *)

(** ** Path lookup *)

Arguments walk : simpl never.

Lemma walk_nil fs f b loc :
  walk fs f b loc [] =
  match lookup_loc fs loc with
  | Some n => inr (b, loc, n)
  | None => inl ENOENT
  end.
Proof. destruct b; reflexivity. Qed.

Lemma walk_cons fs f b loc c rest :
  walk fs f b loc (c :: rest) =
  match lookup_loc fs loc with
  | Some (Dir Accessible es) =>
      if String.eqb c "." then walk fs f b loc rest
      else if String.eqb c ".." then walk fs f b (removelast loc) rest
      else
        match assoc c es with
        | None => inl ENOENT
        | Some File =>
            match rest with
            | [] => inr (b, loc ++ [c], File)
            | _ :: _ => inl ENOTDIR
            end
        | Some (Dir _ _) => walk fs f b (loc ++ [c]) rest
        | Some (Symlink t) =>
            match rest, f with
            | [], false => inr (b, loc ++ [c], Symlink t)
            | _, _ =>
                match b with
                | O => inl ELOOP
                | S b' =>
                    walk fs f b' (if is_absolute t then [] else loc)
                      (parts t ++ rest)
                end
            end
        end
  | Some (Dir Denied _) => inl EACCES
  | Some (Dir Faulty _) => inl EIO
  | Some _ => inl ENOTDIR
  | None => inl ENOENT
  end.
Proof. destruct b; reflexivity. Qed.

Lemma lookup_loc_app fs loc c :
  lookup_loc fs (loc ++ [c]) =
  match lookup_loc fs loc with
  | Some (Dir _ es) => assoc c es
  | _ => None
  end.
Proof.
  revert fs; induction loc as [|a loc IH]; intros fs; simpl.
  - destruct fs; auto. destruct (assoc c entries); auto.
  - destruct fs; auto. destruct (assoc a entries); auto.
Qed.

(** Looking up [p ++ q] is looking up [p], following every link, and then
    [q] from where that ended. *)
Lemma walk_app fs f : forall b p loc q,
  q <> [] ->
  walk fs f b loc (p ++ q) =
  match walk fs true b loc p with
  | inl e => inl e
  | inr (b', loc', _) => walk fs f b' loc' q
  end.
Proof.
  induction b as [b IHb] using lt_wf_ind.
  induction p as [|c p IHp]; intros loc q Hq.
  - simpl. rewrite walk_nil. destruct (lookup_loc fs loc) eqn:E; auto.
    destruct q as [|c q]; [congruence|]. rewrite walk_cons, E. reflexivity.
  - simpl. rewrite !walk_cons.
    destruct (lookup_loc fs loc) as [[| |[] es]|] eqn:E; auto.
    destruct (String.eqb c "."); [apply IHp; auto|].
    destruct (String.eqb c ".."); [apply IHp; auto|].
    destruct (assoc c es) as [[| |]|] eqn:A; auto.
    + destruct p; simpl.
      * destruct q as [|c' q]; [congruence|].
        rewrite walk_cons, lookup_loc_app, E, A. reflexivity.
      * reflexivity.
    + assert (H : match b with
                  | O => inl ELOOP
                  | S b1 => walk fs f b1 (if is_absolute target then [] else loc)
                              (parts target ++ p ++ q)
                  end =
                  match
                    match b with
                    | O => inl ELOOP
                    | S b1 => walk fs true b1
                                (if is_absolute target then [] else loc)
                                (parts target ++ p)
                    end
                  with
                  | inl e => inl e
                  | inr (b', loc', _) => walk fs f b' loc' q
                  end).
      { destruct b as [|b1]; [reflexivity|].
        rewrite app_assoc. apply IHb; auto. }
      destruct p; simpl in *; destruct q; try congruence; destruct f; exact H.
Qed.

Lemma walk_sound fs f : forall b p loc b' loc' n,
  walk fs f b loc p = inr (b', loc', n) -> lookup_loc fs loc' = Some n.
Proof.
  induction b as [b IHb] using lt_wf_ind.
  induction p as [|c p IHp]; intros loc b' loc' n.
  - rewrite walk_nil. destruct (lookup_loc fs loc) eqn:E; congruence.
  - rewrite walk_cons.
    destruct (lookup_loc fs loc) as [[| |[] es]|] eqn:E; try discriminate.
    destruct (String.eqb c "."); [apply IHp|].
    destruct (String.eqb c ".."); [apply IHp|].
    destruct (assoc c es) as [[| |]|] eqn:A; try discriminate.
    + destruct p; [|discriminate]. intros H; inversion H; subst.
      rewrite lookup_loc_app, E. exact A.
    + assert (Hf : forall b0, match b with
                      | O => inl ELOOP
                      | S b1 => walk fs f b1 (if is_absolute target then [] else loc)
                                  (parts target ++ p)
                      end = inr (b0, loc', n) -> lookup_loc fs loc' = Some n).
      { intros b0. destruct b as [|b1]; [discriminate|]. apply IHb. lia. }
      destruct p; destruct f; try apply Hf.
      intros H; inversion H; subst. rewrite lookup_loc_app, E. exact A.
    + apply IHp.
Qed.

Lemma assoc_height c es child st :
  assoc c es = Some child -> height child < height (Dir st es).
Proof.
  simpl. induction es as [|[k v] es IH]; simpl; [discriminate|].
  destruct (String.eqb c k).
  - intros H; inversion H; subst. lia.
  - intros H. specialize (IH H). lia.
Qed.

Lemma lookup_loc_height : forall loc fs n,
  lookup_loc fs loc = Some n -> height n <= height fs.
Proof.
  induction loc as [|c loc IH]; intros fs n; simpl.
  - intros H; inversion H; auto.
  - destruct fs as [| |st es]; try discriminate.
    destruct (assoc c es) as [child|] eqn:A; [|discriminate].
    intros H. apply IH in H. pose proof (assoc_height c es child st A). lia.
Qed.

Lemma dir_height_le fs p : dir_height fs p <= height fs.
Proof.
  unfold dir_height, os_stat.
  destruct (walk fs true MAXSYMLINKS [] p) as [e|[[b loc] n]] eqn:W; [lia|].
  apply walk_sound in W. eapply lookup_loc_height; eauto.
Qed.

Lemma assoc_in c es : In c (map fst es) -> exists child, assoc c es = Some child.
Proof.
  induction es as [|[k v] es IH]; simpl; [tauto|].
  destruct (String.eqb_spec c k); [eauto|].
  intros [H|H]; [congruence|auto].
Qed.

Lemma entry_names_in c es :
  In c (entry_names es) ->
  String.eqb c "." = false /\ String.eqb c ".." = false /\
  exists child, assoc c es = Some child.
Proof.
  unfold entry_names, special_name. rewrite filter_In, nodup_In.
  intros [H1 H2]. apply negb_true_iff, orb_false_iff in H2.
  destruct H2; repeat split; auto using assoc_in.
Qed.

(** A name that a listing of [p] returned can be looked up: [lstat] finds
    the entry, and [stat] finds it too unless it is a link. *)
Lemma stat_child fs p es c :
  os_stat fs p = inr (Dir Accessible es) ->
  In c (entry_names es) ->
  exists child,
    assoc c es = Some child /\
    os_lstat fs (p ++ [c]) = inr child /\
    ((forall t, child <> Symlink t) -> os_stat fs (p ++ [c]) = inr child).
Proof.
  unfold os_stat, os_lstat. intros Hp Hc.
  destruct (walk fs true MAXSYMLINKS [] p) as [e|[[b loc] n]] eqn:W;
    [discriminate|].
  inversion Hp; subst n; clear Hp.
  pose proof (walk_sound _ _ _ _ _ _ _ _ W) as L.
  apply entry_names_in in Hc. destruct Hc as (H1 & H2 & child & A).
  exists child. split; [exact A|].
  rewrite !(walk_app fs _ _ p [] [c]) by discriminate. rewrite W.
  rewrite !walk_cons, L, H1, H2, A.
  destruct child as [|t|st' es']; simpl.
  - split; auto.
  - split; auto. intros H. exfalso. eapply H; eauto.
  - rewrite !walk_nil, lookup_loc_app, L, A. split; auto.
Qed.

(** ** Listed entries and the probe *)

(** *** Facts about listed entries *)

Lemma iterdir_listed fs cur es :
  iterdir fs cur = inr es -> Forall (listed fs cur) es.
Proof.
  unfold iterdir, os_listdir.
  destruct (os_stat fs cur) as [e|[| |[] ents]] eqn:S; try discriminate.
  intros H; inversion H; subst; clear H.
  apply Forall_forall. intros e He. apply in_map_iff in He.
  destruct He as (c & <- & Hc). exists ents, c. auto.
Qed.

Lemma listed_is_symlink fs cur e :
  listed fs cur e -> exists b, is_symlink fs e = inr b.
Proof.
  intros (es & c & S & Hc & ->).
  destruct (stat_child fs cur es c S Hc) as (child & _ & L & _).
  unfold is_symlink. rewrite L. destruct child; simpl; eauto.
Qed.

Lemma listed_plain fs cur e :
  listed fs cur e -> is_symlink fs e = inr false ->
  exists d, is_plain_dir fs e = inr d /\
            (d = true -> dir_height fs e < dir_height fs cur).
Proof.
  intros (es & c & S & Hc & ->) Hs.
  destruct (stat_child fs cur es c S Hc) as (child & A & L & St).
  unfold is_plain_dir, is_dir. rewrite Hs.
  unfold is_symlink in Hs. rewrite L in Hs.
  destruct child as [|t|st' es']; simpl in Hs; try discriminate.
  - rewrite St by congruence. simpl. exists false. split; [reflexivity|discriminate].
  - rewrite St by congruence. simpl. exists true. split; auto. intros _.
    unfold dir_height. rewrite S, St by congruence.
    eapply assoc_height; eauto.
Qed.

Lemma plain_dir_height fs cur e :
  listed fs cur e -> is_plain_dir fs e = inr true ->
  dir_height fs e < dir_height fs cur.
Proof.
  intros HL HP.
  destruct (listed_is_symlink _ _ _ HL) as [b Hb].
  destruct b.
  - exfalso. revert HP. unfold is_plain_dir. rewrite Hb.
    destruct (is_dir fs e) as [?|[]]; cbn [negb]; discriminate.
  - destruct (listed_plain _ _ _ HL Hb) as (d & Hd & Hh).
    rewrite HP in Hd. inversion Hd; subst; auto.
Qed.

(** *** The probe terminates *)

Lemma probe_entries_total fs m d recur es :
  (forall e, In e es -> is_plain_dir fs e = inr true -> exists r, recur e = Some r) ->
  exists r, probe_entries fs m d recur es = Some r.
Proof.
  induction es as [|e es IH]; intros H; simpl; [eauto|].
  destruct (is_symlink fs e) as [?|sl]; [eauto|].
  destruct (sl && within m d); [eauto|].
  destruct (is_plain_dir fs e) as [?|[]] eqn:P; [eauto| |].
  - destruct (H e (or_introl eq_refl) P) as [[] ->]; [eauto|].
    apply IH. intros; apply H; simpl; auto.
  - apply IH. intros; apply H; simpl; auto.
Qed.

Lemma probe_entries_mono fs m d rec1 rec2 es r :
  (forall e r, In e es -> rec1 e = Some r -> rec2 e = Some r) ->
  probe_entries fs m d rec1 es = Some r ->
  probe_entries fs m d rec2 es = Some r.
Proof.
  induction es as [|e es IH]; intros H; simpl; auto.
  destruct (is_symlink fs e) as [?|sl]; auto.
  destruct (sl && within m d); auto.
  destruct (is_plain_dir fs e) as [?|[]]; auto.
  - destruct (rec1 e) as [[]|] eqn:R; try discriminate.
    + rewrite (H e true (or_introl eq_refl) R). auto.
    + rewrite (H e false (or_introl eq_refl) R).
      apply IH. intros; eapply H; simpl; eauto.
  - apply IH. intros; eapply H; simpl; eauto.
Qed.

Lemma has_symlinks_recursive_mono fs : forall fuel fuel' p d m r,
  fuel <= fuel' ->
  has_symlinks_recursive fs fuel p d m = Some r ->
  has_symlinks_recursive fs fuel' p d m = Some r.
Proof.
  induction fuel as [|fuel IH]; intros fuel' p d m r Hle; simpl; [discriminate|].
  destruct fuel' as [|fuel']; [lia|]. simpl.
  destruct (beyond m d); auto.
  destruct (iterdir fs p); auto.
  apply probe_entries_mono. intros e r' _. apply IH. lia.
Qed.

Lemma has_symlinks_recursive_total fs : forall fuel p d m,
  dir_height fs p < fuel ->
  exists r, has_symlinks_recursive fs fuel p d m = Some r.
Proof.
  induction fuel as [|fuel IH]; intros p d m Hh; [lia|]. simpl.
  destruct (beyond m d); [eauto|].
  destruct (iterdir fs p) as [?|es] eqn:I; [eauto|].
  apply probe_entries_total. intros e He HP. apply IH.
  pose proof (iterdir_listed _ _ _ I) as HL. rewrite Forall_forall in HL.
  pose proof (plain_dir_height _ _ _ (HL e He) HP). lia.
Qed.

Opaque walk.

(** ** The loop of the walk and the sorted listing *)

(** *** The loop of [build_symlink_tree], entry by entry *)

Section Loop.
Variables (fs : node) (cwd root : path) (m : option Z).
Variables (probe : path -> option bool) (recur : path -> option outcome).

Lemma build_entries_cons e es c f :
  build_entries fs cwd root m probe recur (e :: es) c f =
  match entry_contribution fs cwd root m probe recur e with
  | Diverged => None
  | Raised x => Some (inl x)
  | Emitted l => build_entries fs cwd root m probe recur es (c ++ l) (f || nonempty l)
  end.
Proof.
  unfold entry_contribution. cbn [build_entries].
  destruct (is_symlink fs e) as [?|[]]; auto.
  - destruct (relative_to e root); auto.
    destruct (beyond m _); cbn [nonempty];
      rewrite ?app_nil_r, ?orb_false_r, ?orb_true_r; auto.
    destruct (readlink fs e); cbn [nonempty]; rewrite ?orb_true_r; auto.
  - destruct (is_plain_dir fs e) as [?|[]]; cbn [nonempty];
      rewrite ?app_nil_r, ?orb_false_r; auto.
    destruct (probe e) as [[]|]; cbn [nonempty];
      rewrite ?app_nil_r, ?orb_false_r; auto.
    destruct (recur e) as [[?|[sub []]]|]; cbn [nonempty];
      rewrite ?app_nil_r, ?orb_false_r, ?orb_true_r; auto.
Qed.

(** The loop returns exactly when every entry emits, and then it has
    attached the emitted nodes in order. *)
Lemma build_entries_spec : forall es c f c' f',
  build_entries fs cwd root m probe recur es c f = Some (inr (c', f')) <->
  exists ls,
    Forall2 (fun e l => entry_contribution fs cwd root m probe recur e = Emitted l) es ls /\
    c' = c ++ concat ls /\ f' = f || nonempty (concat ls).
Proof.
  induction es as [|e es IH]; intros c f c' f'.
  - cbn [build_entries]. split.
    + intros H; inversion H; subst. exists []. cbn.
      rewrite app_nil_r, orb_false_r. auto.
    + intros (ls & H & -> & ->). inversion H; subst. cbn.
      rewrite app_nil_r, orb_false_r. auto.
  - rewrite build_entries_cons. split.
    + destruct (entry_contribution fs cwd root m probe recur e) as [|x|l] eqn:C; try discriminate.
      intros H. apply IH in H. destruct H as (ls & H & -> & ->).
      exists (l :: ls). split; [constructor; auto|]. cbn [concat].
      rewrite app_assoc. split; auto.
      destruct l, (concat ls); cbn; rewrite ?orb_false_r, ?orb_true_r; auto.
    + intros (ls & H & -> & ->). inversion H as [|? l ? ls' C H']; subst.
      rewrite C. apply IH. exists ls'. split; auto. cbn [concat].
      rewrite app_assoc. split; auto.
      destruct l, (concat ls'); cbn; rewrite ?orb_false_r, ?orb_true_r; auto.
Qed.

Lemma build_entries_total : forall es c f,
  (forall e, In e es -> entry_contribution fs cwd root m probe recur e <> Diverged) ->
  exists o, build_entries fs cwd root m probe recur es c f = Some o.
Proof.
  induction es as [|e es IH]; intros c f H.
  - cbn; eauto.
  - rewrite build_entries_cons.
    destruct (entry_contribution fs cwd root m probe recur e) as [|x|l] eqn:C.
    + exfalso. apply (H e); simpl; auto.
    + eauto.
    + apply IH. intros; apply H; simpl; auto.
Qed.

Lemma build_entries_no_raise : forall es c f o,
  (forall e x, In e es -> entry_contribution fs cwd root m probe recur e <> Raised x) ->
  build_entries fs cwd root m probe recur es c f = Some o -> exists c' f', o = inr (c', f').
Proof.
  induction es as [|e es IH]; intros c f o H.
  - cbn. intros E; inversion E; eauto.
  - rewrite build_entries_cons.
    destruct (entry_contribution fs cwd root m probe recur e) as [|x|l] eqn:C.
    + discriminate.
    + exfalso. apply (H e x); simpl; auto.
    + apply IH. intros; apply H; simpl; auto.
Qed.
End Loop.

Lemma build_entries_ext fs cwd root m p1 p2 r1 r2 : forall es c f,
  (forall e, In e es ->
     entry_contribution fs cwd root m p1 r1 e =
     entry_contribution fs cwd root m p2 r2 e) ->
  build_entries fs cwd root m p1 r1 es c f =
  build_entries fs cwd root m p2 r2 es c f.
Proof.
  induction es as [|e es IH]; intros c f H; [reflexivity|].
  rewrite !build_entries_cons, (H e) by (simpl; auto).
  destruct (entry_contribution fs cwd root m p2 r2 e); auto.
  apply IH. intros; apply H; simpl; auto.
Qed.

Lemma relative_to_app : forall root suffix,
  relative_to (root ++ suffix) root = Some suffix.
Proof.
  induction root as [|b root IH]; intros suffix; simpl; auto.
  rewrite String.eqb_refl. apply IH.
Qed.

Lemma name_app (p : path) c : name (p ++ [c]) = c.
Proof. unfold name. apply last_last. Qed.

(** *** Sorting is a permutation *)

Lemma insert_by_key_perm x l : Permutation (insert_by_key x l) (x :: l).
Proof.
  induction l as [|y l IH]; simpl; auto.
  destruct (key_leb (fst x) (fst y)); auto.
  rewrite IH. apply perm_swap.
Qed.

Lemma sort_by_key_perm l : Permutation (sort_by_key l) l.
Proof.
  induction l as [|x l IH]; simpl; auto.
  rewrite insert_by_key_perm. auto.
Qed.

Lemma keyed_spec fs : forall es ks,
  keyed fs es = inr ks ->
  map snd ks = es /\
  Forall (fun k : sort_key * path =>
            is_dir fs (snd k) = inr (negb (fst (fst k))) /\
                   snd (fst k) = lower (name (snd k))) ks.
Proof.
  induction es as [|e es IH]; intros ks; simpl.
  - intros H; inversion H; subst; auto.
  - destruct (is_dir fs e) as [?|d] eqn:D; [discriminate|].
    destruct (keyed fs es) as [?|ks']; [discriminate|].
    intros H; inversion H; subst; clear H.
    destruct (IH ks' eq_refl) as [E F]. simpl. split; [congruence|].
    constructor; auto. simpl. rewrite negb_involutive. auto.
Qed.

Lemma sorted_entries_perm fs cur l :
  sorted_entries fs cur = inr l ->
  exists es, iterdir fs cur = inr es /\ Permutation l es.
Proof.
  unfold sorted_entries.
  destruct (iterdir fs cur) as [?|es]; [discriminate|].
  destruct (keyed fs es) as [?|ks] eqn:K; [discriminate|].
  intros H; inversion H; subst; clear H.
  exists es. split; auto. apply keyed_spec in K. destruct K as [<- _].
  apply Permutation_map, sort_by_key_perm.
Qed.

Lemma sorted_entries_listed fs cur l :
  sorted_entries fs cur = inr l -> Forall (listed fs cur) l.
Proof.
  intros H. apply sorted_entries_perm in H. destruct H as (es & I & P).
  apply iterdir_listed in I. rewrite Forall_forall in *.
  intros e He. apply I. eapply Permutation_in; eauto.
Qed.

(** ** The walk: fuel, exceptions *)

(** *** No exception escapes the loop, and it runs out of fuel only if a
    recursive call does *)

Lemma contribution_not_raised fs cwd root suffix m probe recur e x :
  listed fs (root ++ suffix) e ->
  (forall y, recur e <> Some (inl y)) ->
  entry_contribution fs cwd root m probe recur e <> Raised x.
Proof.
  intros HL Hr. unfold entry_contribution.
  destruct (listed_is_symlink _ _ _ HL) as [b Hb]. rewrite Hb.
  destruct b.
  - destruct HL as (es & c & _ & _ & ->).
    rewrite <- app_assoc, relative_to_app.
    destruct (beyond m _); [discriminate|].
    destruct (readlink fs _); discriminate.
  - destruct (listed_plain _ _ _ HL Hb) as (d & -> & _).
    destruct d; [|discriminate].
    destruct (probe e) as [[]|]; try discriminate.
    destruct (recur e) as [[y|[sub []]]|] eqn:R; try discriminate.
    exfalso. eapply Hr; eauto.
Qed.

Lemma contribution_not_diverged fs cwd root m probe recur e :
  (is_plain_dir fs e = inr true -> probe e <> None /\ recur e <> None) ->
  entry_contribution fs cwd root m probe recur e <> Diverged.
Proof.
  intros H. unfold entry_contribution.
  destruct (is_symlink fs e) as [?|[]]; try discriminate.
  - destruct (relative_to e root); try discriminate.
    destruct (beyond m _); [discriminate|].
    destruct (readlink fs e); discriminate.
  - destruct (is_plain_dir fs e) as [?|[]]; try discriminate.
    destruct (H eq_refl) as [Hp Hr].
    destruct (probe e) as [[]|]; try discriminate; try congruence.
    destruct (recur e) as [[y|[sub []]]|]; try discriminate; congruence.
Qed.

Lemma contribution_mono fs cwd root m p1 p2 r1 r2 e :
  (forall r, p1 e = Some r -> p2 e = Some r) ->
  (forall o, r1 e = Some o -> r2 e = Some o) ->
  entry_contribution fs cwd root m p1 r1 e <> Diverged ->
  entry_contribution fs cwd root m p2 r2 e =
  entry_contribution fs cwd root m p1 r1 e.
Proof.
  intros Hp Hr. unfold entry_contribution.
  destruct (is_symlink fs e) as [?|[]]; auto.
  destruct (is_plain_dir fs e) as [?|[]]; auto.
  destruct (p1 e) as [b|] eqn:P; [|congruence].
  rewrite (Hp b eq_refl). destruct b; auto.
  destruct (r1 e) as [o|] eqn:R; [|congruence].
  rewrite (Hr o eq_refl). auto.
Qed.

Lemma build_entries_mono fs cwd root m p1 p2 r1 r2 : forall es c f o,
  (forall e r, p1 e = Some r -> p2 e = Some r) ->
  (forall e o, r1 e = Some o -> r2 e = Some o) ->
  build_entries fs cwd root m p1 r1 es c f = Some o ->
  build_entries fs cwd root m p2 r2 es c f = Some o.
Proof.
  induction es as [|e es IH]; intros c f o Hp Hr; [auto|].
  rewrite !build_entries_cons. intros H.
  rewrite (contribution_mono fs cwd root m p1 p2 r1 r2 e); auto.
  - destruct (entry_contribution fs cwd root m p1 r1 e); auto.
  - intros E. rewrite E in H. discriminate.
Qed.

Lemma build_symlink_tree_mono fs cwd : forall fuel fuel' root cur d m o,
  fuel <= fuel' ->
  build_symlink_tree fs cwd fuel root cur d m = Some o ->
  build_symlink_tree fs cwd fuel' root cur d m = Some o.
Proof.
  induction fuel as [|fuel IH]; intros fuel' root cur d m o Hle;
    [discriminate|].
  destruct fuel' as [|fuel']; [lia|]. cbn [build_symlink_tree].
  destruct (beyond m d); auto.
  destruct (sorted_entries fs cur); auto.
  apply build_entries_mono.
  - intros e r. apply has_symlinks_recursive_mono. lia.
  - intros e o'. apply IH. lia.
Qed.

Lemma build_symlink_tree_total fs cwd : forall fuel root cur d m,
  dir_height fs cur < fuel ->
  exists o, build_symlink_tree fs cwd fuel root cur d m = Some o.
Proof.
  induction fuel as [|fuel IH]; intros root cur d m Hh; [lia|].
  cbn [build_symlink_tree].
  destruct (beyond m d); [eauto|].
  destruct (sorted_entries fs cur) as [e|es] eqn:S.
  { destruct (is_PermissionError e); eauto. }
  apply build_entries_total. intros e He.
  apply contribution_not_diverged. intros HP.
  pose proof (sorted_entries_listed _ _ _ S) as HL.
  rewrite Forall_forall in HL.
  pose proof (plain_dir_height _ _ _ (HL e He) HP).
  split.
  - destruct (has_symlinks_recursive_total fs fuel e (d + 1) m) as [r ->];
      [lia|discriminate].
  - destruct (IH root e (d + 1)%Z m) as [o ->]; [lia|discriminate].
Qed.

Lemma build_symlink_tree_no_raise fs cwd : forall fuel root suffix d m o,
  build_symlink_tree fs cwd fuel root (root ++ suffix) d m = Some o ->
  exists children found, o = inr (children, found).
Proof.
  induction fuel as [|fuel IH]; intros root suffix d m o; [discriminate|].
  cbn [build_symlink_tree].
  destruct (beyond m d); [intros H; inversion H; eauto|].
  destruct (sorted_entries fs (root ++ suffix)) as [e|es] eqn:S.
  { destruct (is_PermissionError e); intros H; inversion H; eauto. }
  apply build_entries_no_raise. intros e x He.
  pose proof (sorted_entries_listed _ _ _ S) as HL.
  rewrite Forall_forall in HL. specialize (HL e He).
  apply (contribution_not_raised fs cwd root suffix); auto.
  intros y Hy. destruct HL as (ents & c & _ & _ & ->).
  rewrite <- app_assoc in Hy. apply IH in Hy.
  destruct Hy as (? & ? & ?). discriminate.
Qed.

(** ** The re-scan of [main] *)

(** *** The re-scan *)

Lemma listed_nofollow fs cur e :
  listed fs cur e ->
  exists b, entry_is_dir_nofollow fs e = inr b /\
            (b = true -> dir_height fs e < dir_height fs cur).
Proof.
  intros (es & c & S & Hc & ->).
  destruct (stat_child fs cur es c S Hc) as (child & A & L & St).
  unfold entry_is_dir_nofollow. rewrite L.
  destruct child as [|t|st' es']; cbn [swallow].
  - exists false; split; [reflexivity|discriminate].
  - exists false; split; [reflexivity|discriminate].
  - exists true; split; auto. intros _.
    unfold dir_height. rewrite S, St by congruence.
    eapply assoc_height; eauto.
Qed.

Lemma subdirectories_ok fs recur cur : forall es,
  Forall (listed fs cur) es ->
  (forall e, In e es -> dir_height fs e < dir_height fs cur ->
     exists ds, recur e = Some (inr ds) /\ Forall (below e) ds) ->
  exists ds, subdirectories fs recur es = Some (inr ds) /\
             Forall (below cur) ds.
Proof.
  induction es as [|e es IH]; intros HL H; cbn [subdirectories].
  - eauto.
  - inversion HL as [|? ? He HL']; subst.
    destruct IH as (ds' & E' & B'); auto.
    { intros; apply H; simpl; auto. }
    destruct (listed_nofollow _ _ _ He) as (b & -> & Hb).
    destruct b; [|eauto].
    destruct (H e (or_introl eq_refl) (Hb eq_refl)) as (ds & -> & B).
    rewrite E'. eexists; split; eauto.
    apply Forall_app; split; auto.
    destruct He as (? & c & _ & _ & ->).
    eapply Forall_impl; [|exact B]. intros d [s ->].
    exists ([c] ++ s). rewrite app_assoc. reflexivity.
Qed.

Lemma iterate_directories_ok fs : forall fuel p,
  dir_height fs p < fuel ->
  exists ds, iterate_directories fs fuel p = Some (inr ds) /\
             Forall (below p) ds.
Proof.
  induction fuel as [|fuel IH]; intros p Hh; [lia|].
  cbn [iterate_directories].
  assert (Hp : below p p) by (exists []; rewrite app_nil_r; auto).
  destruct (iterdir fs p) as [?|es] eqn:I; [eauto|].
  destruct (subdirectories_ok fs (iterate_directories fs fuel) p es)
    as (ds & -> & B).
  - eapply iterdir_listed; eauto.
  - intros e _ He. apply IH. lia.
  - eauto.
Qed.

Lemma subdirectories_mono fs r1 r2 : forall es o,
  (forall e o, r1 e = Some o -> r2 e = Some o) ->
  subdirectories fs r1 es = Some o -> subdirectories fs r2 es = Some o.
Proof.
  induction es as [|e es IH]; intros o H; cbn [subdirectories]; auto.
  destruct (entry_is_dir_nofollow fs e) as [?|[]]; auto.
  destruct (r1 e) as [o1|] eqn:R; [|discriminate].
  rewrite (H e o1 R). destruct o1 as [?|ds]; auto.
  destruct (subdirectories fs r1 es) as [o2|] eqn:R2; [|discriminate].
  rewrite (IH o2 H eq_refl). auto.
Qed.

Lemma iterate_directories_mono fs : forall fuel fuel' p o,
  fuel <= fuel' ->
  iterate_directories fs fuel p = Some o ->
  iterate_directories fs fuel' p = Some o.
Proof.
  induction fuel as [|fuel IH]; intros fuel' p o Hle; [discriminate|].
  destruct fuel' as [|fuel']; [lia|]. cbn [iterate_directories].
  destruct (iterdir fs p); auto.
  destruct (subdirectories fs (iterate_directories fs fuel) l) as [o1|] eqn:R;
    [|discriminate].
  assert (M : forall e o', iterate_directories fs fuel e = Some o' ->
                           iterate_directories fs fuel' e = Some o').
  { intros e o'. apply IH. lia. }
  rewrite (subdirectories_mono fs _ _ l o1 M R). auto.
Qed.





(** ** What a returned tree holds *)

(** *** Views of the report tree *)

Lemma link_paths_dir nm cs :
  link_paths (DirectoryNode nm cs) = map (cons nm) (links_of cs).
Proof.
  reflexivity.
Qed.

Lemma dir_paths_dir nm cs :
  dir_paths (DirectoryNode nm cs) = [nm] :: map (cons nm) (dirs_of cs).
Proof.
  reflexivity.
Qed.

Lemma has_placeholder_dir nm cs :
  has_placeholder (DirectoryNode nm cs) = any_placeholder cs.
Proof.
  reflexivity.
Qed.

Lemma links_of_app a b : links_of (a ++ b) = links_of a ++ links_of b.
Proof. apply flat_map_app. Qed.

Lemma dirs_of_app a b : dirs_of (a ++ b) = dirs_of a ++ dirs_of b.
Proof. apply flat_map_app. Qed.

Lemma links_of_concat ls : links_of (concat ls) = flat_map links_of ls.
Proof.
  induction ls as [|l ls IH]; cbn [concat flat_map]; [reflexivity|].
  now rewrite links_of_app, IH.
Qed.

Lemma dirs_of_concat ls : dirs_of (concat ls) = flat_map dirs_of ls.
Proof.
  induction ls as [|l ls IH]; cbn [concat flat_map]; [reflexivity|].
  now rewrite dirs_of_app, IH.
Qed.

Lemma beyond_within m x : beyond m x = negb (within m x).
Proof.
  destruct m as [k|]; cbn; [|reflexivity].
  rewrite Z.gtb_ltb, Z.ltb_antisym. reflexivity.
Qed.

(** *** What one entry can emit *)

Lemma contribution_emission fs cwd root m probe recur e l :
  entry_contribution fs cwd root m probe recur e = Emitted l ->
  emission fs cwd root m recur e l.
Proof.
  unfold entry_contribution.
  destruct (is_symlink fs e) as [?|[]] eqn:S; try discriminate.
  - destruct (relative_to e root) as [rel|] eqn:R; try discriminate.
    rewrite beyond_within.
    destruct (within m _) eqn:W; cbn [negb].
    + destruct (readlink fs e) eqn:L; intros H; inversion H; subst.
      * eapply emit_link_error; eauto.
      * eapply emit_link; eauto.
    + intros H; inversion H; constructor.
  - destruct (is_plain_dir fs e) as [?|[]] eqn:P; try discriminate.
    + destruct (probe e) as [[]|]; try discriminate.
      * destruct (recur e) as [[?|[sub []]]|] eqn:R; try discriminate;
          intros H; inversion H; subst; [|constructor].
        eapply emit_directory; eauto.
      * intros H; inversion H; constructor.
    + intros H; inversion H; constructor.
Qed.

(** *** Inversion of a returned [build_symlink_tree] *)

Lemma build_inv fs cwd fuel root cur d m children found :
  build_symlink_tree fs cwd (S fuel) root cur d m = Some (inr (children, found)) ->
  (children = [] /\ found = false /\ beyond m d = true) \/
  (exists msg e, children = [ErrorPlaceholder msg] /\ found = false /\
                 sorted_entries fs cur = inl e) \/
  (exists es ls,
     beyond m d = false /\
     sorted_entries fs cur = inr es /\
     Forall2 (fun e l =>
                entry_contribution fs cwd root m
                  (fun e => has_symlinks_recursive fs fuel e (d + 1) m)
                  (fun e => build_symlink_tree fs cwd fuel root e (d + 1) m)
                  e = Emitted l) es ls /\
     children = concat ls /\ found = nonempty (concat ls)).
Proof.
  cbn [build_symlink_tree].
  destruct (beyond m d); [intros H; inversion H; auto|].
  destruct (sorted_entries fs cur) as [e|es].
  - right; left. destruct (is_PermissionError e); inversion H; eauto.
  - intros H. apply build_entries_spec in H. destruct H as (ls & F & -> & ->).
    right; right. exists es, ls. auto.
Qed.

Lemma Forall2_flat_map_in {A B C} (R : A -> B -> Prop) (f : B -> list C) :
  forall es ls x,
    Forall2 R es ls -> In x (flat_map f ls) ->
    exists e l, In e es /\ In l ls /\ R e l /\ In x (f l).
Proof.
  induction 1 as [|e l es ls H F IH]; cbn [flat_map]; [intros []|].
  rewrite in_app_iff. intros [Hx|Hx].
  - exists e, l. simpl; auto.
  - destruct (IH Hx) as (e' & l' & ? & ? & ? & ?). exists e', l'. simpl; auto.
Qed.

Lemma in_concat_links l ls lp :
  In l ls -> In lp (links_of l) -> In lp (links_of (concat ls)).
Proof.
  intros Hl Hlp. rewrite links_of_concat. apply in_flat_map. eauto.
Qed.

(** *** Every link of the tree is a link of the file system, within the
    limit *)

Lemma build_links_sound fs cwd : forall fuel root suffix d m children found,
  build_symlink_tree fs cwd fuel root (root ++ suffix) d m
    = Some (inr (children, found)) ->
  forall lp, In lp (links_of children) ->
    is_symlink fs (root ++ suffix ++ lp) = inr true /\
    within m (Z.of_nat (List.length suffix + List.length lp)) = true.
Proof.
  induction fuel as [|fuel IH]; intros root suffix d m children found H lp Hlp;
    [discriminate|].
  apply build_inv in H.
  destruct H as [(-> & _)|[(msg & e & -> & _)|(es & ls & _ & HS & F & -> & _)]].
  - destruct Hlp.
  - destruct Hlp.
  - rewrite links_of_concat in Hlp.
    destruct (Forall2_flat_map_in _ _ _ _ _ F Hlp) as (e & l & He & _ & C & Hl).
    apply sorted_entries_listed in HS. rewrite Forall_forall in HS.
    destruct (HS e He) as (ents & c & _ & _ & ->).
    apply contribution_emission in C.
    inversion C as [|rel t Hs Hr Hw _|rel err Hs Hr Hw _|sub Hs Hp Hrec]; subst;
      cbn in Hl.
    + destruct Hl.
    + destruct Hl as [<-|[]]. rewrite name_app.
      rewrite <- app_assoc, relative_to_app in Hr. inversion Hr; subst.
      rewrite length_app in Hw. rewrite <- app_assoc in Hs. auto.
    + destruct Hl as [<-|[]]. rewrite name_app.
      rewrite <- app_assoc, relative_to_app in Hr. inversion Hr; subst.
      rewrite length_app in Hw. rewrite <- app_assoc in Hs. auto.
    + rewrite app_nil_r in Hl. apply in_map_iff in Hl.
      destruct Hl as (lp' & <- & Hlp'). rewrite name_app.
      rewrite <- app_assoc in Hrec.
      destruct (IH _ _ _ _ _ _ Hrec lp' Hlp') as [I1 I2].
      rewrite <- app_assoc in I1. split; [exact I1|].
      rewrite length_app in I2. cbn [List.length] in *.
      replace (List.length suffix + S (List.length lp'))
        with (List.length suffix + 1 + List.length lp') by lia. exact I2.
Qed.

(** *** The returned flag says whether the tree holds a link *)

Lemma build_found_links fs cwd : forall fuel root cur d m children found,
  build_symlink_tree fs cwd fuel root cur d m = Some (inr (children, found)) ->
  (found = true -> exists lp, lp <> [] /\ In lp (links_of children)) /\
  (found = false -> links_of children = []).
Proof.
  induction fuel as [|fuel IH]; intros root cur d m children found H;
    [discriminate|].
  apply build_inv in H.
  destruct H as [(-> & -> & _)|[(msg & e & -> & -> & _)|(es & ls & _ & HS & F & -> & ->)]].
  - split; [discriminate|reflexivity].
  - split; [discriminate|reflexivity].
  - split.
    + intros N.
      assert (X : exists x, In x (concat ls)).
      { destruct (concat ls) as [|x ?]; [discriminate|exists x; simpl; auto]. }
      destruct X as [x Hx]. apply in_concat in Hx. destruct Hx as (l & Hl & Hx).
      destruct (Forall2_flat_map_in _ (fun l => l) es ls x F) as (e & l' & _ & Hl' & C & Hx').
      { apply in_flat_map. eauto. }
      apply contribution_emission in C.
      inversion C as [|rel t _ _ _ _|rel err _ _ _ _|sub _ _ Hrec]; subst.
      * destruct Hx'.
      * exists [name e]. split; [discriminate|].
        eapply in_concat_links; eauto. simpl; auto.
      * exists [name e]. split; [discriminate|].
        eapply in_concat_links; eauto. simpl; auto.
      * destruct (IH _ _ _ _ _ _ Hrec) as [I _].
        destruct (I eq_refl) as (lp & _ & Hlp).
        exists (name e :: lp). split; [discriminate|].
        eapply in_concat_links; eauto. cbn. rewrite app_nil_r.
        apply in_map. exact Hlp.
    + intros N. destruct (concat ls); [reflexivity|discriminate].
Qed.

(** *** Every directory node has a link below it *)

Lemma build_dirs_nonempty fs cwd : forall fuel root cur d m children found,
  build_symlink_tree fs cwd fuel root cur d m = Some (inr (children, found)) ->
  forall dp, In dp (dirs_of children) ->
    exists rest, rest <> [] /\ In (dp ++ rest) (links_of children).
Proof.
  induction fuel as [|fuel IH]; intros root cur d m children found H dp Hdp;
    [discriminate|].
  apply build_inv in H.
  destruct H as [(-> & _)|[(msg & e & -> & _)|(es & ls & _ & HS & F & -> & _)]].
  - destruct Hdp.
  - destruct Hdp.
  - rewrite dirs_of_concat in Hdp.
    destruct (Forall2_flat_map_in _ _ _ _ _ F Hdp) as (e & l & _ & Hl & C & Hd).
    apply contribution_emission in C.
    inversion C as [|rel t _ _ _ _|rel err _ _ _ _|sub _ _ Hrec]; subst;
      try (destruct Hd; fail).
    cbn in Hd. rewrite app_nil_r in Hd. destruct Hd as [<-|Hd].
    + destruct (build_found_links _ _ _ _ _ _ _ _ _ Hrec) as [I _].
      destruct (I eq_refl) as (lp & Hne & Hlp).
      exists lp. split; auto. eapply in_concat_links; eauto.
      cbn. rewrite app_nil_r. apply in_map. exact Hlp.
    + apply in_map_iff in Hd. destruct Hd as (dp' & <- & Hdp').
      destruct (IH _ _ _ _ _ _ Hrec dp' Hdp') as (rest & Hne & Hin).
      exists rest. split; auto. eapply in_concat_links; eauto.
      cbn. rewrite app_nil_r. apply in_map. exact Hin.
Qed.

(** *** No placeholder survives in a tree that is returned with [True] *)

Lemma build_placeholder fs cwd : forall fuel root cur d m children found,
  build_symlink_tree fs cwd fuel root cur d m = Some (inr (children, found)) ->
  found = true -> any_placeholder children = false.
Proof.
  induction fuel as [|fuel IH]; intros root cur d m children found H N;
    [discriminate|].
  apply build_inv in H.
  destruct H as [(_ & -> & _)|[(msg & e & _ & -> & _)|(es & ls & _ & HS & F & -> & _)]];
    try discriminate.
  unfold any_placeholder.
  destruct (existsb has_placeholder (concat ls)) eqn:E; [|reflexivity].
  apply existsb_exists in E. destruct E as (x & Hx & Px).
  destruct (Forall2_flat_map_in _ (fun l => l) es ls x F) as (e & l & _ & _ & C & Hx').
  { rewrite flat_map_concat_map, map_id. exact Hx. }
  apply contribution_emission in C.
  inversion C as [|rel t _ _ _ _|rel err _ _ _ _|sub _ _ Hrec]; subst;
    try (destruct Hx'; fail); destruct Hx' as [<-|[]]; try discriminate.
  rewrite has_placeholder_dir in Px.
  rewrite (IH _ _ _ _ _ _ Hrec eq_refl) in Px. discriminate.
Qed.

(** ** Termination and the exit status *)


(** C10. For every file system (links that point at themselves or at each
    other included), every start path, depth and limit, both recursive
    functions return: any fuel above the height of the directory hierarchy
    is enough, and the result does not depend on it.  The reason is the
    second part: an entry the functions recurse into, a listed entry that
    is a directory and no link, leads to a directory strictly lower in
    the hierarchy than the one being listed. *)
Theorem traversal_terminates :
  forall fs cwd root p d m,
    (exists r o,
       forall k,
         has_symlinks_recursive fs (S (height fs) + k) p d m = Some r /\
         build_symlink_tree fs cwd (S (height fs) + k) root p d m = Some o) /\
    (forall cur e,
       listed fs cur e -> is_plain_dir fs e = inr true ->
       dir_height fs e < dir_height fs cur <= height fs).
Proof.
  intros fs cwd root p d m. split.
  - pose proof (dir_height_le fs p) as Hh.
    destruct (has_symlinks_recursive_total fs (S (height fs)) p d m) as [r Hr];
      [lia|].
    destruct (build_symlink_tree_total fs cwd (S (height fs)) root p d m)
      as [o Ho]; [lia|].
    exists r, o. intros k. split.
    + eapply has_symlinks_recursive_mono; [|exact Hr]. lia.
    + eapply build_symlink_tree_mono; [|exact Ho]. lia.
  - intros cur e HL HP. split.
    + eapply plain_dir_height; eauto.
    + apply dir_height_le.
Qed.


(** ** Pruning, and entries that are neither links nor directories *)

(** C4. In the tree a walk from the root returns, every directory node has
    a link label among its descendants, and that link lies within the depth
    limit. *)
Theorem pruning_invariant :
  forall fs cwd fuel root m children found,
    build_symlink_tree fs cwd fuel root root 0 m = Some (inr (children, found)) ->
    forall dp, In dp (dirs_of children) ->
      exists rest,
        rest <> [] /\
        In (dp ++ rest) (links_of children) /\
        within m (Z.of_nat (List.length (dp ++ rest))) = true.
Proof.
  intros fs cwd fuel root m children found H dp Hdp.
  destruct (build_dirs_nonempty _ _ _ _ _ _ _ _ _ H dp Hdp) as (rest & Hne & Hin).
  exists rest. repeat split; auto.
  rewrite <- (app_nil_r root) in H at 2.
  destruct (build_links_sound _ _ _ _ _ _ _ _ _ H _ Hin) as [_ W]. exact W.
Qed.

(** The invariant on the scenario of the specification, limit 2: the
    directory node [d] has a link below it. *)
Lemma pruning_invariant_witness :
  exists rest,
    rest <> [] /\
    In (["d"%string] ++ rest) (links_of scenario_children) /\
    within (Some 2%Z) (Z.of_nat (List.length (["d"%string] ++ rest))) = true.
Proof.
  apply (pruning_invariant scenario_fs [] 3 ["scan"%string] (Some 2%Z)
           scenario_children true).
  - vm_compute. reflexivity.
  - vm_compute. auto.
Defined.

(** C9. Entries that are neither links nor directories leave no trace: the
    loop of [build_symlink_tree] attaches the same nodes and returns the
    same flag as on the listing without them, the probe answers the same,
    and the summary counts the same; yet they are part of the sorted
    listing the loop runs over. *)
Theorem other_entries_ignored :
  forall fs cwd root m probe recur precur d target depth,
    (forall es children found,
       build_entries fs cwd root m probe recur es children found =
       build_entries fs cwd root m probe recur
         (filter (fun e => negb (is_other fs e)) es) children found) /\
    (forall es,
       probe_entries fs m d precur es =
       probe_entries fs m d precur (filter (fun e => negb (is_other fs e)) es)) /\
    (forall ps,
       count_symlinks fs target depth ps =
       count_symlinks fs target depth (filter (fun e => negb (is_other fs e)) ps)) /\
    (forall cur listing entries e,
       iterdir fs cur = inr listing ->
       sorted_entries fs cur = inr entries ->
       In e listing -> In e entries).
Proof.
  intros fs cwd root m probe recur precur d target depth.
  assert (P : forall e, is_other fs e = true ->
                is_symlink fs e = inr false /\ is_plain_dir fs e = inr false).
  { intros e. unfold is_other, is_plain_dir.
    destruct (is_symlink fs e) as [?|[]]; try discriminate.
    destruct (is_dir fs e) as [?|[]]; try discriminate. auto. }
  repeat split.
  - induction es as [|e es IH]; intros children found; [reflexivity|].
    cbn [filter]. destruct (is_other fs e) eqn:O; cbn [negb].
    + destruct (P e O) as [S1 S2]. cbn [build_entries]. rewrite S1, S2. apply IH.
    + rewrite !build_entries_cons.
      destruct (entry_contribution fs cwd root m probe recur e); auto.
  - induction es as [|e es IH]; [reflexivity|].
    cbn [filter]. destruct (is_other fs e) eqn:O; cbn [negb].
    + destruct (P e O) as [S1 S2]. cbn [probe_entries]. rewrite S1, S2.
      cbn [andb]. apply IH.
    + cbn [probe_entries]. rewrite IH. reflexivity.
  - induction ps as [|e ps IH]; [reflexivity|].
    cbn [filter]. destruct (is_other fs e) eqn:O; cbn [negb].
    + destruct (P e O) as [S1 _]. cbn [count_symlinks]. rewrite S1. apply IH.
    + cbn [count_symlinks]. rewrite IH. reflexivity.
  - intros cur listing entries e I S He.
    apply sorted_entries_perm in S. destruct S as (es & I' & Perm).
    rewrite I in I'. inversion I'; subst.
    eapply Permutation_in; [apply Permutation_sym|]; eauto.
Qed.

(** ** Display order *)

(** *** The order of the keys *)










(** *** The loop does not depend on the order of the entries *)



Lemma Forall2_weaken {A B} (R R' : A -> B -> Prop) : forall es ls,
  Forall2 R es ls ->
  (forall e l, In e es -> R e l -> R' e l) ->
  Forall2 R' es ls.
Proof.
  induction 1 as [|e l es ls H F IH]; intros W; constructor.
  - apply W; simpl; auto.
  - apply IH. intros; apply W; simpl; auto.
Qed.


Lemma Forall2_in_left {A B} (R : A -> B -> Prop) : forall es ls e,
  Forall2 R es ls -> In e es -> exists l, In l ls /\ R e l.
Proof.
  induction 1 as [|e' l es ls H F IH]; intros [].
  - subst. exists l; simpl; auto.
  - destruct (IH H0) as (l' & ? & ?). exists l'; simpl; auto.
Qed.




(** ** The depth filter *)

(** *** Every link of the tree is a visible link *)

Lemma build_links_visible fs cwd : forall fuel root suffix d m children found,
  build_symlink_tree fs cwd fuel root (root ++ suffix) d m
    = Some (inr (children, found)) ->
  forall lp, In lp (links_of children) -> visible_link fs (root ++ suffix) lp.
Proof.
  induction fuel as [|fuel IH]; intros root suffix d m children found H lp Hlp;
    [discriminate|].
  apply build_inv in H.
  destruct H as [(-> & _)|[(msg & e & -> & _)|(es & ls & _ & HS & F & -> & _)]].
  - destruct Hlp.
  - destruct Hlp.
  - rewrite links_of_concat in Hlp.
    destruct (Forall2_flat_map_in _ _ _ _ _ F Hlp) as (e & l & He & _ & C & Hl).
    pose proof (sorted_entries_listed _ _ _ HS) as HL.
    rewrite Forall_forall in HL.
    destruct (HL e He) as (ents & c & _ & _ & ->).
    apply contribution_emission in C.
    inversion C as [|rel t Hs Hr Hw _|rel err Hs Hr Hw _|sub Hs Hp Hrec]; subst;
      cbn in Hl.
    + destruct Hl.
    + destruct Hl as [<-|[]]. rewrite name_app. eapply link_here; eauto.
    + destruct Hl as [<-|[]]. rewrite name_app. eapply link_here; eauto.
    + rewrite app_nil_r in Hl. apply in_map_iff in Hl.
      destruct Hl as (lp' & <- & Hlp'). rewrite name_app.
      eapply link_below; eauto.
      rewrite <- app_assoc in Hrec.
      specialize (IH _ _ _ _ _ _ Hrec lp' Hlp').
      rewrite app_assoc in IH. exact IH.
Qed.

(** *** The probe finds every visible link within the limit *)

Lemma within_shorter m a b :
  (a <= b)%Z -> within m b = true -> within m a = true.
Proof.
  destruct m as [k|]; cbn; auto. rewrite !Z.leb_le. lia.
Qed.

Lemma plain_dir_not_symlink fs cur e :
  listed fs cur e -> is_plain_dir fs e = inr true -> is_symlink fs e = inr false.
Proof.
  intros HL HP. destruct (listed_is_symlink _ _ _ HL) as [b Hb].
  destruct b; auto. exfalso. revert HP. unfold is_plain_dir. rewrite Hb.
  destruct (is_dir fs e) as [?|[]]; cbn [negb]; discriminate.
Qed.

Lemma probe_entries_finds fs m d recur cur : forall es r,
  Forall (listed fs cur) es ->
  within m d = true ->
  (exists e, In e es /\
     (is_symlink fs e = inr true \/
      (is_plain_dir fs e = inr true /\ forall r', recur e = Some r' -> r' = true))) ->
  probe_entries fs m d recur es = Some r -> r = true.
Proof.
  induction es as [|e es IH]; intros r HL W (x & Hx & P); [destruct Hx|].
  inversion HL as [|? ? He HL']; subst.
  cbn [probe_entries].
  destruct (listed_is_symlink _ _ _ He) as [sl Hsl]. rewrite Hsl, W.
  destruct sl; cbn [andb]; [congruence|].
  destruct (listed_plain _ _ _ He Hsl) as (pd & Hpd & _). rewrite Hpd.
  destruct Hx as [<-|Hx].
  - destruct P as [P|[P1 P2]]; [congruence|].
    rewrite Hpd in P1. inversion P1; subst pd.
    destruct (recur e) as [[]|] eqn:R; try discriminate; [congruence|].
    specialize (P2 false eq_refl). discriminate.
  - assert (T : probe_entries fs m d recur es = Some r -> r = true).
    { apply IH; eauto. }
    destruct pd; auto.
    destruct (recur e) as [[]|]; try discriminate; auto. congruence.
Qed.

Lemma has_symlinks_recursive_finds fs : forall p lp,
  visible_link fs p lp ->
  forall fuel d m r,
    within m (d + Z.of_nat (List.length lp)) = true ->
    has_symlinks_recursive fs fuel p d m = Some r -> r = true.
Proof.
  induction 1 as [cur c es HS He Hs|cur s lp es HS He Hp V IH];
    intros fuel d m r W; (destruct fuel as [|fuel]; [discriminate|]);
    cbn [has_symlinks_recursive];
    (assert (Wd : within m d = true)
       by (eapply within_shorter; [|exact W]; lia));
    rewrite beyond_within, Wd; cbn [negb];
    apply sorted_entries_perm in HS; destruct HS as (es0 & I & P);
    rewrite I; apply probe_entries_finds with (cur := cur);
    try exact Wd; try (eapply iterdir_listed; exact I).
  - exists (cur ++ [c]). split; [eapply Permutation_in; eauto|auto].
  - exists (cur ++ [s]). split; [eapply Permutation_in; eauto|]. right.
    split; [exact Hp|]. intros r'. apply IH.
    eapply within_shorter; [|exact W]. cbn [List.length]. lia.
Qed.

(** *** Every visible link within the limit is in the tree *)

Lemma build_links_complete fs cwd : forall cur lp,
  visible_link fs cur lp ->
  forall fuel root suffix m children found,
    cur = root ++ suffix ->
    within m (Z.of_nat (List.length suffix + List.length lp)) = true ->
    build_symlink_tree fs cwd fuel root cur (Z.of_nat (List.length suffix)) m
      = Some (inr (children, found)) ->
    In lp (links_of children).
Proof.
  induction 1 as [cur c es HS He Hs|cur s lp es HS He Hp V IH];
    intros fuel root suffix m children found -> W H;
    (destruct fuel as [|fuel]; [discriminate|]);
    (assert (Wd : within m (Z.of_nat (List.length suffix)) = true)
       by (eapply within_shorter; [|exact W]; lia));
    apply build_inv in H;
    (destruct H as [(_ & _ & B)|[(msg & e & _ & _ & E)|(es' & ls & B & HS' & F & -> & _)]];
     [ rewrite beyond_within, Wd in B; discriminate
     | congruence
     | rewrite HS in HS'; inversion HS'; subst es' ]).
  - destruct (Forall2_in_left _ _ _ _ F He) as (l & Hl & C).
    eapply in_concat_links; [exact Hl|].
    revert C. unfold entry_contribution. rewrite Hs.
    rewrite <- app_assoc, relative_to_app, beyond_within.
    rewrite length_app. cbn [List.length] in *. rewrite W. cbn [negb].
    rewrite app_assoc.
    destruct (readlink fs _); intros C; inversion C; subst;
      rewrite name_app; cbn; auto.
  - destruct (Forall2_in_left _ _ _ _ F He) as (l & Hl & C).
    eapply in_concat_links; [exact Hl|].
    pose proof (sorted_entries_listed _ _ _ HS) as HL.
    rewrite Forall_forall in HL. specialize (HL _ He).
    revert C. unfold entry_contribution.
    rewrite (plain_dir_not_symlink _ _ _ HL Hp), Hp.
    destruct (has_symlinks_recursive fs fuel _ _ m) as [r|] eqn:R;
      [|discriminate].
    assert (r = true) as ->.
    { eapply has_symlinks_recursive_finds; [exact V| |exact R].
      eapply within_shorter; [|exact W]. cbn [List.length]. lia. }
    destruct (build_symlink_tree fs cwd fuel root _ _ m) as [o|] eqn:Bd;
      [|discriminate].
    assert (Bd' := Bd). rewrite <- app_assoc in Bd'.
    apply build_symlink_tree_no_raise in Bd'.
    destruct Bd' as (sub & sf & ->).
    assert (Hin : In lp (links_of sub)).
    { eapply (IH fuel root (suffix ++ [s]) m sub sf).
      - rewrite app_assoc. reflexivity.
      - rewrite length_app. cbn [List.length] in *.
        eapply within_shorter; [|exact W]. lia.
      - rewrite length_app, Nat2Z.inj_add. exact Bd. }
    destruct sf.
    + intros C; inversion C; subst. rewrite name_app. cbn.
      rewrite app_nil_r. apply in_map. exact Hin.
    + destruct (build_found_links _ _ _ _ _ _ _ _ _ Bd) as [_ N].
      rewrite (N eq_refl) in Hin. destruct Hin.
Qed.

Local Open Scope string_scope.
Local Open Scope list_scope.

(** ** The claims on concrete file systems *)

(** C6, as the code has it.  The link labels of the tree a walk from the
    root returns are exactly the visible links whose depth (the number of
    path components below the root, 1 for a direct child) is within the
    limit; with no limit every visible link is there.  The returned flag is
    raised by such links only. *)
Theorem depth_filter :
  forall fs cwd fuel root m children found,
    build_symlink_tree fs cwd fuel root root 0 m = Some (inr (children, found)) ->
    (forall lp,
       In lp (links_of children) <->
       visible_link fs root lp /\ within m (Z.of_nat (List.length lp)) = true) /\
    found = nonempty (links_of children).
Proof.
  intros fs cwd fuel root m children found H. split.
  - intros lp. split.
    + intros Hlp.
      assert (H' := H). rewrite <- (app_nil_r root) in H' at 2.
      split.
      * rewrite <- (app_nil_r root). eapply build_links_visible; eauto.
      * destruct (build_links_sound _ _ _ _ _ _ _ _ _ H' lp Hlp) as [_ W].
        exact W.
    + intros [V W].
      eapply (build_links_complete fs cwd root lp V fuel root [] m children found).
      * rewrite app_nil_r. reflexivity.
      * exact W.
      * exact H.
  - destruct (build_found_links _ _ _ _ _ _ _ _ _ H) as [T F].
    destruct found.
    + destruct (T eq_refl) as (lp & _ & Hlp).
      destruct (links_of children); [destruct Hlp|reflexivity].
    + rewrite (F eq_refl). reflexivity.
Qed.

(** The scenario under the limit 1: the links [c] and [b] and no other. *)
Lemma depth_filter_witness :
  (forall lp,
     In lp (links_of [LinkEntry "c" (rel_path ["a"]) true;
                      LinkEntry "b" (abs_path ["missing"]) true]) <->
     visible_link scenario_fs ["scan"] lp /\
     within (Some 1%Z) (Z.of_nat (List.length lp)) = true) /\
  true = nonempty (links_of [LinkEntry "c" (rel_path ["a"]) true;
                             LinkEntry "b" (abs_path ["missing"]) true]).
Proof.
  apply (depth_filter scenario_fs [] 3 ["scan"] (Some 1%Z)
           [LinkEntry "c" (rel_path ["a"]) true;
            LinkEntry "b" (abs_path ["missing"]) true] true).
  vm_compute. reflexivity.
Defined.

(** C6 as stated fails: with no limit, the link [/scan/priv/k] is under the
    root and is not in the tree, because [priv] cannot be listed. *)
Lemma all_links_appear_fails :
  ~ (forall fs cwd fuel root children found lp t,
       build_symlink_tree fs cwd fuel root root 0 None
         = Some (inr (children, found)) ->
       lp <> [] ->
       lookup_loc fs (root ++ lp) = Some (Symlink t) ->
       In lp (links_of children)).
Proof.
  intros H.
  specialize (H private_fs [] 3%nat ["scan"]
                [LinkEntry "b" (abs_path ["missing"]) true] true
                ["priv"; "k"] (abs_path ["missing"])).
  assert (X : In ["priv"; "k"]
                (links_of [LinkEntry "b" (abs_path ["missing"]) true])).
  { apply H; [vm_compute; reflexivity|discriminate|reflexivity]. }
  cbn in X. destruct X as [X|[]]. discriminate.
Qed.

(** C1.  The broken flag is computed by looking the stored target up from
    the working directory.  Run from [/], the relative link [/scan/c -> a]
    is flagged broken although what it points at, [/scan/a], exists; and
    the relative link [/scan/x -> scan], whose target [/scan/scan] does not
    exist, is not flagged, because [/scan] does. *)
Theorem broken_flag_uses_working_directory :
  build_symlink_tree scenario_fs [] 3 ["scan"] ["scan"] 0 None
    = Some (inr (scenario_children, true)) /\
  In (LinkEntry "c" (rel_path ["a"]) true) scenario_children /\
  path_exists scenario_fs ["scan"; "c"] = inr true /\
  build_symlink_tree dangling_fs [] 3 ["scan"] ["scan"] 0 None
    = Some (inr ([LinkEntry "x" (rel_path ["scan"]) false], true)) /\
  path_exists dangling_fs ["scan"; "x"] = inr false.
Proof.
  repeat split; try (vm_compute; reflexivity).
  cbn. auto.
Qed.

(** C3.  Called as [build_symlink_tree] calls it, for the directory
    [/scan/d] at depth 1 under the limit 1, the probe answers [True]: the
    only link below, [/scan/d/link], has depth 2.  The build that follows
    attaches nothing. *)
Theorem probe_counts_one_level_too_deep :
  has_symlinks_recursive scenario_fs 3 ["scan"; "d"] 1 (Some 1%Z) = Some true /\
  iterdir scenario_fs ["scan"; "d"] = inr [["scan"; "d"; "link"]] /\
  relative_to ["scan"; "d"; "link"] ["scan"] = Some ["d"; "link"] /\
  build_symlink_tree scenario_fs [] 3 ["scan"] ["scan"; "d"] 1 (Some 1%Z)
    = Some (inr ([], false)).
Proof.
  repeat split; vm_compute; reflexivity.
Qed.

(** C5.  On [secret_fs] the tree shows one link and the summary says two:
    sorting the listing of [/scan/d] raises (its link points into a closed
    directory), the branch is dropped, and the re-scan still counts the
    link. *)
Theorem summary_count_disagrees :
  main secret_fs [] 3 (abs_path ["scan"]) None
    = Some (Run [PrintedTree ["scan"] None
                   [LinkEntry "b" (abs_path ["missing"]) true];
                 SymlinksShown 2] (inr 0%Z)) /\
  count_links [LinkEntry "b" (abs_path ["missing"]) true] = 1 /\
  sorted_entries secret_fs ["scan"; "d"] = inl EACCES /\
  is_symlink secret_fs ["scan"; "d"; "l"] = inr true.
Proof.
  repeat split; vm_compute; reflexivity.
Qed.

(** C7.  A listing that fails leaves no placeholder in what is printed.
    The closed directory [/scan/priv] is skipped without a trace; scanning
    it as the root attaches the placeholder and then prints that no links
    were found; and the placeholder attached for [/scan/d] of [secret_fs]
    goes with the directory node that is removed. *)
Theorem listing_errors_not_shown :
  iterdir private_fs ["scan"; "priv"] = inl EACCES /\
  main private_fs [] 3 (abs_path ["scan"]) None
    = Some (Run [PrintedTree ["scan"] None
                   [LinkEntry "b" (abs_path ["missing"]) true];
                 SymlinksShown 1] (inr 0%Z)) /\
  build_symlink_tree private_fs [] 3 ["scan"; "priv"] ["scan"; "priv"] 0 None
    = Some (inr ([ErrorPlaceholder PermissionDenied], false)) /\
  main private_fs [] 3 (abs_path ["scan"; "priv"]) None
    = Some (Run [NoSymlinksFound ["scan"; "priv"]] (inr 0%Z)) /\
  build_symlink_tree secret_fs [] 3 ["scan"] ["scan"; "d"] 1 None
    = Some (inr ([ErrorPlaceholder PermissionDenied], false)) /\
  build_symlink_tree secret_fs [] 3 ["scan"] ["scan"] 0 None
    = Some (inr ([LinkEntry "b" (abs_path ["missing"]) true], true)).
Proof.
  repeat split; vm_compute; reflexivity.
Qed.

(** X2.  No tree that [main] prints holds an error placeholder, at any
    level: a placeholder is attached only by a call that returns [False],
    and what such a call attached is removed or never printed. *)
Theorem printed_tree_has_no_placeholder :
  forall fs cwd fuel a depth r,
    main fs cwd fuel a depth = Some r ->
    forall target info children,
      In (PrintedTree target info children) (printed r) ->
      any_placeholder children = false.
Proof.
  intros fs cwd fuel a depth r.
  assert (X : forall o children0 rest,
            any_placeholder children0 = false ->
            (forall x, In x rest -> exists n, x = SymlinksShown n) ->
            forall target info children,
              In (PrintedTree target info children)
                 (PrintedTree o (depth_info depth) children0 :: rest) ->
              any_placeholder children = false).
  { intros o c0 rest NP R target info children [E|E].
    - inversion E; subst; exact NP.
    - destruct (R _ E) as [n ?]. discriminate. }
  unfold main.
  destruct (path_exists fs (absolute cwd a)) as [?|[]];
    [| |intros H; inversion H; subst; intros ? ? ? [E|[]]; discriminate];
    [intros H; inversion H; subst; intros ? ? ? []|].
  destruct (is_dir fs (absolute cwd a)) as [?|[]];
    [| |intros H; inversion H; subst; intros ? ? ? [E|[]]; discriminate];
    [intros H; inversion H; subst; intros ? ? ? []|].
  destruct (build_symlink_tree fs cwd fuel _ _ 0 depth)
    as [[?|[children []]]|] eqn:B; try discriminate;
    [intros H; inversion H; subst; intros ? ? ? []| |
     intros H; inversion H; subst; intros ? ? ? [E|[]]; discriminate].
  pose proof (build_placeholder _ _ _ _ _ _ _ _ _ B eq_refl) as NP.
  destruct (rglob fs fuel (absolute cwd a)) as [[?|ps]|]; try discriminate.
  - intros H; inversion H; subst. apply X; [exact NP|intros ? []].
  - destruct (count_symlinks fs _ depth ps) as [?|n];
      intros H; inversion H; subst; (apply X; [exact NP|]).
    + intros ? [].
    + intros ? [<-|[]]. eauto.
Qed.

(** The tree printed for [secret_fs], where a placeholder was attached to
    the node of [d] before that node was removed. *)
Lemma printed_tree_has_no_placeholder_witness :
  any_placeholder [LinkEntry "b" (abs_path ["missing"]) true] = false.
Proof.
  apply (printed_tree_has_no_placeholder secret_fs [] 3 (abs_path ["scan"]) None
           (Run [PrintedTree ["scan"] None
                   [LinkEntry "b" (abs_path ["missing"]) true];
                 SymlinksShown 2] (inr 0%Z)))
    with (target := ["scan"]) (info := @None Z).
  - vm_compute. reflexivity.
  - cbn. auto.
Defined.

(** Links that point at themselves or at each other do not keep the walk
    from ending. *)
Example cyclic_links_terminate :
  main cyclic_fs [] 4 (abs_path ["scan"]) None
    = Some (Run [PrintedTree ["scan"] None
                   [DirectoryNode "sub"
                      [LinkEntry "ping" (abs_path ["scan"; "sub"; "pong"]) true;
                       LinkEntry "pong" (rel_path ["ping"]) true];
                    LinkEntry "up" (abs_path ["scan"]) false;
                    LinkEntry "self" (rel_path ["self"]) true];
                 SymlinksShown 4] (inr 0%Z)).
Proof. vm_compute. reflexivity. Qed.

(** ** Count consistency *)

(** *** The summary count and the tree *)

Lemma count_symlinks_sum fs target depth : forall ps,
  Forall (fun q => exists d, below target d /\ listed fs d q) ps ->
  count_symlinks fs target depth ps
    = inr (list_sum (map (counted fs target depth) ps)).
Proof.
  induction ps as [|q ps IH]; intros H; [reflexivity|].
  inversion H as [|? ? (d & [s ->] & HL) H']; subst.
  cbn [count_symlinks map]. rewrite (IH H').
  change (list_sum (counted fs target depth q :: map (counted fs target depth) ps))
    with (counted fs target depth q + list_sum (map (counted fs target depth) ps)).
  generalize (list_sum (map (counted fs target depth) ps)). intros n.
  unfold counted.
  destruct (listed_is_symlink _ _ _ HL) as [b ->].
  destruct b; [|reflexivity].
  destruct depth as [k|]; [|reflexivity].
  destruct HL as (? & c & _ & _ & ->).
  rewrite <- app_assoc, relative_to_app.
  destruct (_ <=? k)%Z; reflexivity.
Qed.

Lemma scan_total_app fs target depth a b :
  scan_total fs target depth (a ++ b)
    = scan_total fs target depth a + scan_total fs target depth b.
Proof.
  unfold scan_total. now rewrite flat_map_app, map_app, list_sum_app.
Qed.

Lemma iterate_directories_below fs fuel p ds :
  iterate_directories fs fuel p = Some (inr ds) -> Forall (below p) ds.
Proof.
  intros H.
  destruct (iterate_directories_ok fs (S (height fs) + fuel) p) as (ds' & E & B).
  { pose proof (dir_height_le fs p). lia. }
  assert (Hle : fuel <= S (height fs) + fuel) by lia.
  rewrite (iterate_directories_mono fs fuel _ p _ Hle H) in E.
  inversion E; subst. exact B.
Qed.

(** Below a directory that lies beyond the limit nothing is counted. *)
Lemma scan_total_beyond fs root suffix m ds :
  beyond m (Z.of_nat (List.length suffix)) = true ->
  Forall (below (root ++ suffix)) ds ->
  scan_total fs root m ds = 0.
Proof.
  intros B F. unfold scan_total.
  assert (Z : forall q, In q (flat_map (select_children fs) ds) ->
                counted fs root m q = 0).
  { intros q Hq. apply in_flat_map in Hq. destruct Hq as (d & Hd & Hq).
    rewrite Forall_forall in F. destruct (F d Hd) as [s ->].
    unfold select_children in Hq.
    destruct (iterdir fs _) as [?|es] eqn:I; [destruct Hq|].
    apply iterdir_listed in I. rewrite Forall_forall in I.
    destruct (I q Hq) as (? & c & _ & _ & ->).
    unfold counted. destruct (is_symlink fs _) as [?|[]]; auto.
    destruct m as [k|]; [|discriminate].
    rewrite <- !app_assoc, relative_to_app, !length_app.
    cbn in B |- *. apply Z.gtb_gt in B.
    destruct (Z.leb_spec (Z.of_nat (List.length suffix + (List.length s + 1))) k);
      [lia|reflexivity]. }
  induction (flat_map (select_children fs) ds) as [|q qs IH]; [reflexivity|].
  cbn [map].
  change (list_sum (counted fs root m q :: map (counted fs root m) qs))
    with (counted fs root m q + list_sum (map (counted fs root m) qs)).
  rewrite (Z q (or_introl eq_refl)), IH; auto.
  intros; apply Z; simpl; auto.
Qed.

Lemma listed_nofollow_plain fs cur e :
  listed fs cur e ->
  entry_is_dir_nofollow fs e
    = inr match is_plain_dir fs e with inr true => true | _ => false end.
Proof.
  intros (es & c & Hst & Hc & ->).
  destruct (stat_child fs cur es c Hst Hc) as (child & A & L & St).
  unfold entry_is_dir_nofollow, is_plain_dir, is_dir, is_symlink.
  rewrite L. destruct child as [|t|st' es'].
  - rewrite St by congruence. reflexivity.
  - cbn [swallow].
    destruct (os_stat fs (cur ++ [c])) as [err|[| |]]; cbn [swallow negb];
      try reflexivity.
    destruct (ignore_error err); reflexivity.
  - rewrite St by congruence. reflexivity.
Qed.

Lemma subdirectories_total fs root m f2 cur : forall es ds,
  Forall (listed fs cur) es ->
  subdirectories fs (iterate_directories fs f2) es = Some (inr ds) ->
  scan_total fs root m ds = list_sum (map (below_total fs root m f2) es) /\
  forall e, In e es -> is_plain_dir fs e = inr true ->
    exists ds_e, iterate_directories fs f2 e = Some (inr ds_e).
Proof.
  induction es as [|e es IH]; intros ds HL; cbn [subdirectories].
  - intros H; inversion H; subst. split; [reflexivity|intros ? []].
  - inversion HL as [|? ? He HL']; subst.
    rewrite (listed_nofollow_plain _ _ _ He).
    cbn [map].
    change (list_sum (below_total fs root m f2 e :: map (below_total fs root m f2) es))
      with (below_total fs root m f2 e + list_sum (map (below_total fs root m f2) es)).
    unfold below_total at 1.
    destruct (is_plain_dir fs e) as [?|[]] eqn:P.
    + intros H. destruct (IH ds HL' H) as [E D]. split; [exact E|].
      intros x [<-|Hx]; [congruence|auto].
    + destruct (iterate_directories fs f2 e) as [[?|ds_e]|] eqn:I;
        try discriminate.
      destruct (subdirectories fs (iterate_directories fs f2) es)
        as [[?|ds']|] eqn:R; try discriminate.
      intros H; inversion H; subst.
      destruct (IH ds' HL' eq_refl) as [E D]. split.
      * rewrite scan_total_app, E. reflexivity.
      * intros x [<-|Hx]; [eauto|auto].
    + intros H. destruct (IH ds HL' H) as [E D]. split; [exact E|].
      intros x [<-|Hx]; [congruence|auto].
Qed.

Lemma Forall2_sum {A B} (g : B -> nat) (v : A -> nat) : forall es ls,
  Forall2 (fun e l => g l = v e) es ls ->
  list_sum (map g ls) = list_sum (map v es).
Proof.
  induction 1 as [|e l es ls H F IH]; [reflexivity|].
  cbn [map]. cbn [list_sum fold_right]. fold (list_sum (map g ls)).
  fold (list_sum (map v es)). now rewrite H, IH.
Qed.

Lemma count_links_concat ls :
  count_links (concat ls) = list_sum (map (fun l => List.length (links_of l)) ls).
Proof.
  unfold count_links. rewrite links_of_concat. apply length_flat_map.
Qed.

(** The summary count of the directories below a directory equals the
    number of links in the tree built for it. *)
Lemma scan_matches_tree fs cwd root m :
  sortable fs ->
  forall f2 fuel suffix children found ds,
    build_symlink_tree fs cwd fuel root (root ++ suffix)
      (Z.of_nat (List.length suffix)) m = Some (inr (children, found)) ->
    iterate_directories fs f2 (root ++ suffix) = Some (inr ds) ->
    scan_total fs root m ds = count_links children.
Proof.
  intros Hsort.
  induction f2 as [|f2 IH]; intros fuel suffix children found ds HB HI;
    [discriminate|].
  destruct fuel as [|fuel]; [discriminate|].
  pose proof (iterate_directories_below _ _ _ _ HI) as Hbelow.
  cbn [iterate_directories] in HI.
  apply build_inv in HB.
  destruct HB as [(-> & _ & B)|[(msg & e & -> & _ & E)|(es & ls & B & HS & F & -> & _)]].
  - (* beyond the limit *)
    eapply scan_total_beyond; eauto.
  - (* the listing failed *)
    destruct (iterdir fs (root ++ suffix)) as [err|es0] eqn:I.
    + inversion HI; subst. unfold scan_total, select_children. cbn.
      rewrite I. reflexivity.
    + destruct (Hsort _ _ I) as [es' Hes']. congruence.
  - pose proof (sorted_entries_perm _ _ _ HS) as (es0 & I & Perm).
    rewrite I in HI.
    destruct (subdirectories fs (iterate_directories fs f2) es0)
      as [[?|ds']|] eqn:R; try discriminate.
    inversion HI; subst ds; clear HI.
    pose proof (iterdir_listed _ _ _ I) as HL0.
    destruct (subdirectories_total fs root m f2 _ _ _ HL0 R) as [E D].
    change ((root ++ suffix) :: ds') with ([root ++ suffix] ++ ds').
    rewrite scan_total_app, E.
    assert (E0 : scan_total fs root m [root ++ suffix]
                 = list_sum (map (counted fs root m) es0)).
    { unfold scan_total, select_children. cbn. rewrite I, app_nil_r.
      reflexivity. }
    rewrite E0, count_links_concat.
    assert (Sum : list_sum (map (counted fs root m) es0) +
                  list_sum (map (below_total fs root m f2) es0)
                  = list_sum (map (fun e => counted fs root m e +
                                            below_total fs root m f2 e) es0)).
    { clear. induction es0 as [|e es0 IH0]; [reflexivity|].
      cbn [map]. cbn [list_sum fold_right].
      fold (list_sum (map (counted fs root m) es0)).
      fold (list_sum (map (below_total fs root m f2) es0)).
      fold (list_sum (map (fun e => counted fs root m e +
                                    below_total fs root m f2 e) es0)).
      lia. }
    rewrite Sum.
    rewrite <- (Permutation_list_sum
                  (Permutation_map (fun e => counted fs root m e +
                                             below_total fs root m f2 e) Perm)).
    symmetry. apply Forall2_sum.
    eapply Forall2_weaken; [exact F|]. cbv beta. intros e l He C.
    assert (He0 : In e es0) by (eapply Permutation_in; eauto).
    rewrite Forall_forall in HL0. pose proof (HL0 e He0) as HLe.
    destruct (listed_is_symlink _ _ _ HLe) as [sl Hsl].
    revert C. unfold entry_contribution, counted, below_total. rewrite Hsl.
    destruct sl.
    + (* a link *)
      assert (NP : match is_plain_dir fs e with inr true => 0 | _ => 0 end = 0)
        by (destruct (is_plain_dir fs e) as [?|[]]; reflexivity).
      assert (NP' : is_plain_dir fs e <> inr true).
      { unfold is_plain_dir. rewrite Hsl.
        destruct (is_dir fs e) as [?|[]]; cbn [negb]; discriminate. }
      destruct (is_plain_dir fs e) as [?|[]]; try congruence;
        destruct HLe as (? & c & _ & _ & ->);
        rewrite <- app_assoc, relative_to_app, beyond_within;
        (destruct m as [k|]; cbn [within negb];
         [destruct (_ <=? k)%Z; cbn [negb]|];
         [| |destruct (readlink fs _); intros C; inversion C; reflexivity];
         [destruct (readlink fs _); intros C; inversion C; reflexivity
         |intros C; inversion C; reflexivity]).
    + (* no link *)
      destruct (listed_plain _ _ _ HLe Hsl) as (pd & Hpd & _). rewrite Hpd.
      destruct pd; [|intros C; inversion C; reflexivity].
      destruct (D e He0 Hpd) as [ds_e Ie]. rewrite Ie.
      destruct HLe as (ents & c & Hst & Hc & ->).
      assert (Hd : (Z.of_nat (List.length suffix) + 1)%Z
                   = Z.of_nat (List.length (suffix ++ [c]))).
      { rewrite length_app. cbn [List.length]. lia. }
      rewrite Hd, <- app_assoc in *.
      destruct (has_symlinks_recursive fs fuel _ _ m) as [[]|] eqn:Pr;
        try discriminate.
      * destruct (build_symlink_tree fs cwd fuel root _ _ m)
          as [[?|[sub sf]]|] eqn:Bd; try discriminate.
        rewrite (IH _ _ _ _ _ Bd Ie).
        destruct sf; intros C; inversion C; subst.
        -- cbn. rewrite app_nil_r, length_map. reflexivity.
        -- destruct (build_found_links _ _ _ _ _ _ _ _ _ Bd) as [_ N].
           unfold count_links. rewrite (N eq_refl). reflexivity.
      * intros C; inversion C; subst. cbn [links_of flat_map List.length].
        destruct (build_symlink_tree_total fs cwd (S (height fs)) root
                    (root ++ suffix ++ [c])
                    (Z.of_nat (List.length (suffix ++ [c]))) m) as [o Bd].
        { pose proof (dir_height_le fs (root ++ suffix ++ [c])). lia. }
        destruct (build_symlink_tree_no_raise _ _ _ _ _ _ _ _ Bd)
          as (sub & sf & ->).
        rewrite (IH _ _ _ _ _ Bd Ie). unfold count_links.
        destruct (links_of sub) as [|lp lps] eqn:Ls; [reflexivity|].
        exfalso.
        assert (Hlp : In lp (links_of sub)) by (rewrite Ls; simpl; auto).
        pose proof (build_links_visible _ _ _ _ _ _ _ _ _ Bd lp Hlp) as V.
        destruct (build_links_sound _ _ _ _ _ _ _ _ _ Bd lp Hlp) as [_ W].
        assert (T : false = true).
        { eapply has_symlinks_recursive_finds; [exact V| |exact Pr].
          rewrite <- Nat2Z.inj_add. exact W. }
        discriminate.
Qed.

(** *** File systems on which no listing fails to sort *)

Lemma all_accessible_assoc c es child :
  all_accessible (Dir Accessible es) = true ->
  assoc c es = Some child -> all_accessible child = true.
Proof.
  cbn [all_accessible].
  induction es as [|[k v] es IH]; cbn [assoc]; [discriminate|].
  intros H. apply andb_true_iff in H. destruct H as [Hv Hes].
  destruct (String.eqb c k); [intros E; inversion E; subst; exact Hv|auto].
Qed.

Lemma all_accessible_lookup : forall loc fs n,
  all_accessible fs = true -> lookup_loc fs loc = Some n ->
  all_accessible n = true.
Proof.
  induction loc as [|c loc IH]; intros fs n H; cbn [lookup_loc].
  - intros E; inversion E; subst; exact H.
  - destruct fs as [| |[] es]; try discriminate.
    destruct (assoc c es) as [child|] eqn:A; [|discriminate].
    apply IH. eapply all_accessible_assoc; eauto.
Qed.

Lemma walk_errors_ignorable fs f :
  all_accessible fs = true ->
  forall b p loc e, walk fs f b loc p = inl e -> ignore_error e = true.
Proof.
  intros Hfs.
  induction b as [b IHb] using lt_wf_ind.
  induction p as [|c p IHp]; intros loc e.
  - rewrite walk_nil. destruct (lookup_loc fs loc); [discriminate|].
    intros E; inversion E; reflexivity.
  - rewrite walk_cons.
    destruct (lookup_loc fs loc) as [[| |st es]|] eqn:L;
      try (intros E; inversion E; reflexivity).
    pose proof (all_accessible_lookup _ _ _ Hfs L) as Ha.
    destruct st; try discriminate.
    destruct (String.eqb c "."); [apply IHp|].
    destruct (String.eqb c ".."); [apply IHp|].
    destruct (assoc c es) as [[| |]|];
      try (intros E; inversion E; reflexivity).
    + destruct p; [discriminate|intros E; inversion E; reflexivity].
    + assert (Hf : match b with
                   | O => inl ELOOP
                   | S b1 => walk fs f b1 (if is_absolute target then [] else loc)
                               (parts target ++ p)
                   end = inl e -> ignore_error e = true).
      { destruct b as [|b1]; [intros E; inversion E; reflexivity|].
        apply IHb. lia. }
      destruct p; destruct f; try exact Hf. discriminate.
    + apply IHp.
Qed.

Lemma all_accessible_sortable fs : all_accessible fs = true -> sortable fs.
Proof.
  intros Hfs cur es I. unfold sorted_entries. rewrite I.
  assert (K : exists ks, keyed fs es = inr ks).
  { clear I. induction es as [|e es IH]; cbn [keyed]; [eauto|].
    destruct IH as [ks ->].
    assert (D : exists d, is_dir fs e = inr d).
    { unfold is_dir, os_stat.
      destruct (walk fs true MAXSYMLINKS [] e) as [err|[[? ?] n]] eqn:W.
      - cbn [swallow]. rewrite (walk_errors_ignorable fs true Hfs _ _ _ _ W).
        eauto.
      - destruct n; cbn [swallow]; eauto. }
    destruct D as [d ->]. eauto. }
  destruct K as [ks ->]. eauto.
Qed.

(** X1.  Count consistency, where every listing that succeeds can be
    sorted: the number [main] prints after the tree is the number of link
    labels in that tree, for every root and depth limit. *)
Theorem summary_count_consistent :
  forall fs cwd fuel args_path args_depth r target info children n,
    sortable fs ->
    main fs cwd fuel args_path args_depth = Some r ->
    printed r = [PrintedTree target info children; SymlinksShown n] ->
    n = count_links children.
Proof.
  intros fs cwd fuel a depth r target info children n Hsort.
  unfold main.
  destruct (path_exists fs (absolute cwd a)) as [?|[]];
    try (intros H; inversion H; subst; discriminate).
  destruct (is_dir fs (absolute cwd a)) as [?|[]];
    try (intros H; inversion H; subst; discriminate).
  destruct (build_symlink_tree fs cwd fuel _ _ 0 depth)
    as [[?|[children0 []]]|] eqn:B;
    try (intros H; inversion H; subst; discriminate).
  unfold rglob.
  destruct (iterate_directories fs fuel (absolute cwd a)) as [[?|ds]|] eqn:I;
    try (intros H; inversion H; subst; discriminate).
  assert (Hps : Forall (fun q => exists d, below (absolute cwd a) d /\ listed fs d q)
                       (flat_map (select_children fs) ds)).
  { apply Forall_forall. intros q Hq. apply in_flat_map in Hq.
    destruct Hq as (d & Hd & Hq).
    pose proof (iterate_directories_below _ _ _ _ I) as Bl.
    rewrite Forall_forall in Bl. exists d. split; [auto|].
    unfold select_children in Hq.
    destruct (iterdir fs d) as [?|es] eqn:Id; [destruct Hq|].
    apply iterdir_listed in Id. rewrite Forall_forall in Id. auto. }
  rewrite (count_symlinks_sum _ _ _ _ Hps).
  intros H; inversion H; subst; clear H. cbn [printed].
  intros E; inversion E; subst.
  rewrite <- (app_nil_r (absolute cwd a)) in B at 2.
  rewrite <- (app_nil_r (absolute cwd a)) in I.
  apply (scan_matches_tree fs cwd _ depth Hsort fuel fuel [] _ _ ds B I).
Qed.

(** The scenario of the specification: three links shown, three counted. *)
Lemma summary_count_consistent_witness :
  3 = count_links scenario_children.
Proof.
  apply (summary_count_consistent scenario_fs [] 3
           (abs_path ["scan"%string]) None
           (Run [PrintedTree ["scan"%string] None scenario_children;
                 SymlinksShown 3] (inr 0%Z))
           ["scan"%string] None scenario_children 3).
  - apply all_accessible_sortable. vm_compute. reflexivity.
  - vm_compute. reflexivity.
  - reflexivity.
Defined.

(** ** Further properties of the walk and the probe *)

(** X3.  No exception escapes [build_symlink_tree] when it is called for
    the root or a directory below it: the tests of lines 93, 95 and 136,
    which stand outside every [try], are made on entries that were just
    listed, and on those they cannot fail. *)
Theorem no_exception_escapes_the_walk :
  forall fs cwd fuel root suffix d m o,
    build_symlink_tree fs cwd fuel root (root ++ suffix) d m = Some o ->
    exists children found, o = inr (children, found).
Proof.
  intros fs cwd fuel root suffix d m o H.
  eapply build_symlink_tree_no_raise; eauto.
Qed.

(** On [secret_fs], where sorting the listing of [/scan/d] raises. *)
Lemma no_exception_escapes_the_walk_witness :
  exists children found,
    @inr exn _ ([LinkEntry "b" (abs_path ["missing"]) true], true)
    = inr (children, found).
Proof.
  apply (no_exception_escapes_the_walk secret_fs [] 3 ["scan"] [] 0 None).
  vm_compute. reflexivity.
Defined.

(** *** What the probe answers *)

Lemma probe_entries_true fs m d recur : forall es,
  probe_entries fs m d recur es = Some true ->
  exists e, In e es /\
    ((is_symlink fs e = inr true /\ within m d = true) \/
     (is_plain_dir fs e = inr true /\ recur e = Some true)).
Proof.
  induction es as [|e es IH]; cbn [probe_entries]; [discriminate|].
  destruct (is_symlink fs e) as [?|sl] eqn:Hs; [discriminate|].
  destruct (sl && within m d) eqn:A.
  - intros _. apply andb_true_iff in A. destruct A as [E W]. subst sl.
    exists e. simpl; auto.
  - destruct (is_plain_dir fs e) as [?|[]] eqn:P; [discriminate| |].
    + destruct (recur e) as [[]|] eqn:R; [| |discriminate].
      * intros _. exists e. simpl; auto.
      * intros H. destruct (IH H) as (x & Hx & Px). exists x. simpl; auto.
    + intros H. destruct (IH H) as (x & Hx & Px). exists x. simpl; auto.
Qed.

Lemma has_symlinks_recursive_true fs : forall fuel p d m,
  has_symlinks_recursive fs fuel p d m = Some true ->
  exists lp,
    probe_link fs p lp /\
    within m (d + Z.of_nat (List.length lp) - 1) = true.
Proof.
  induction fuel as [|fuel IH]; intros p d m; [discriminate|].
  cbn [has_symlinks_recursive].
  destruct (beyond m d); [discriminate|].
  destruct (iterdir fs p) as [?|es] eqn:I; [discriminate|].
  intros H. apply probe_entries_true in H.
  destruct H as (e & He & [[Hs W]|[Hp R]]);
    pose proof (iterdir_listed _ _ _ I) as HL; rewrite Forall_forall in HL;
    destruct (HL e He) as (ents & c & _ & _ & ->).
  - exists [c]. split; [eapply probe_here; eauto|].
    cbn [List.length]. replace (d + Z.of_nat 1 - 1)%Z with d by lia. exact W.
  - destruct (IH _ _ _ R) as (lp & V & W).
    exists (c :: lp). split; [eapply probe_below; eauto|].
    cbn [List.length].
    replace (d + Z.of_nat (S (List.length lp)) - 1)%Z
      with (d + 1 + Z.of_nat (List.length lp) - 1)%Z by lia.
    exact W.
Qed.

Lemma has_symlinks_recursive_complete fs : forall p lp,
  probe_link fs p lp ->
  forall fuel d m r,
    within m (d + Z.of_nat (List.length lp) - 1) = true ->
    has_symlinks_recursive fs fuel p d m = Some r -> r = true.
Proof.
  induction 1 as [cur c es I He Hs|cur s lp es I He Hp V IH];
    intros fuel d m r W; (destruct fuel as [|fuel]; [discriminate|]);
    cbn [has_symlinks_recursive];
    (assert (Wd : within m d = true)
       by (eapply within_shorter; [|exact W]; cbn [List.length]; lia));
    rewrite beyond_within, Wd; cbn [negb];
    rewrite I; apply probe_entries_finds with (cur := cur);
    try exact Wd; try (eapply iterdir_listed; exact I).
  - exists (cur ++ [c]). split; auto.
  - exists (cur ++ [s]). split; [exact He|]. right.
    split; [exact Hp|]. intros r'. apply IH.
    assert (L : probe_link fs (cur ++ [s]) lp -> 1 <= List.length lp).
    { destruct 1; cbn [List.length]; lia. }
    specialize (L V).
    eapply within_shorter; [|exact W]. cbn [List.length]. lia.
Qed.

(** X4.  What [has_symlinks_recursive] computes: it answers [True] exactly
    when some link lies in a directory that is reached from [path] through
    listable directories that are no links and whose own depth, counted
    from [current_depth], is within the limit.  The depth tested is that
    of the directory, one less than that of the link. *)
Theorem probe_answer :
  forall fs fuel p d m r,
    has_symlinks_recursive fs fuel p d m = Some r ->
    (r = true <->
     exists lp,
       probe_link fs p lp /\
       within m (d + Z.of_nat (List.length lp) - 1) = true).
Proof.
  intros fs fuel p d m r H. split.
  - intros ->. eapply has_symlinks_recursive_true; eauto.
  - intros (lp & V & W). eapply has_symlinks_recursive_complete; eauto.
Qed.

(** The directory [/scan/d] of the scenario, probed at depth 1 under the
    limit 1. *)
Lemma probe_answer_witness :
  true = true <->
  exists lp,
    probe_link scenario_fs ["scan"; "d"] lp /\
    within (Some 1%Z) (1 + Z.of_nat (List.length lp) - 1) = true.
Proof.
  apply (probe_answer scenario_fs 3 ["scan"; "d"] 1 (Some 1%Z) true).
  vm_compute. reflexivity.
Defined.

(** ** Shape of the tree and the depth limit *)

(** *** Directory nodes stand for directories that are no links *)

Lemma build_dirs_plain fs cwd : forall fuel root suffix d m children found,
  build_symlink_tree fs cwd fuel root (root ++ suffix) d m
    = Some (inr (children, found)) ->
  forall dp, In dp (dirs_of children) ->
    is_plain_dir fs (root ++ suffix ++ dp) = inr true /\
    is_symlink fs (root ++ suffix ++ dp) = inr false.
Proof.
  induction fuel as [|fuel IH]; intros root suffix d m children found H dp Hdp;
    [discriminate|].
  apply build_inv in H.
  destruct H as [(-> & _)|[(msg & e & -> & _)|(es & ls & _ & HS & F & -> & _)]].
  - destruct Hdp.
  - destruct Hdp.
  - rewrite dirs_of_concat in Hdp.
    destruct (Forall2_flat_map_in _ _ _ _ _ F Hdp) as (e & l & He & _ & C & Hd).
    pose proof (sorted_entries_listed _ _ _ HS) as HL.
    rewrite Forall_forall in HL.
    destruct (HL e He) as (ents & c & _ & _ & ->).
    apply contribution_emission in C.
    inversion C as [|rel t _ _ _ _|rel err _ _ _ _|sub Hs Hp Hrec]; subst;
      try (destruct Hd; fail).
    cbn in Hd. rewrite app_nil_r in Hd. rewrite name_app in Hd.
    destruct Hd as [<-|Hd].
    + rewrite app_assoc. auto.
    + apply in_map_iff in Hd. destruct Hd as (dp' & <- & Hdp').
      rewrite <- app_assoc in Hrec.
      destruct (IH _ _ _ _ _ _ Hrec dp' Hdp') as [I1 I2].
      rewrite <- app_assoc in I1, I2. auto.
Qed.

(** X5.  A directory that is reached through a link is never expanded:
    every directory node of the tree stands for an entry that is a
    directory and no link, and every link label stands for a link, whatever
    it points at; so no entry is shown both ways. *)
Theorem links_are_leaves :
  forall fs cwd fuel root m children found,
    build_symlink_tree fs cwd fuel root root 0 m = Some (inr (children, found)) ->
    (forall dp, In dp (dirs_of children) ->
       is_plain_dir fs (root ++ dp) = inr true /\
       is_symlink fs (root ++ dp) = inr false) /\
    (forall lp, In lp (links_of children) ->
       is_symlink fs (root ++ lp) = inr true /\ ~ In lp (dirs_of children)).
Proof.
  intros fs cwd fuel root m children found H.
  assert (H' := H). rewrite <- (app_nil_r root) in H' at 2.
  split.
  - intros dp Hdp. eapply (build_dirs_plain fs cwd fuel root []); eauto.
  - intros lp Hlp.
    destruct (build_links_sound _ _ _ _ _ _ _ _ _ H' lp Hlp) as [S1 _].
    cbn [app] in S1. split; [exact S1|].
    intros Hd.
    destruct (build_dirs_plain fs cwd fuel root [] _ _ _ _ H' lp Hd) as [_ S2].
    cbn [app] in S2. congruence.
Qed.

(** On [cyclic_fs]: the link [up] points at the directory [/scan] and is a
    leaf; [sub] is the only directory node. *)
Lemma links_are_leaves_witness :
  (forall dp,
     In dp (dirs_of
       [DirectoryNode "sub"
          [LinkEntry "ping" (abs_path ["scan"; "sub"; "pong"]) true;
           LinkEntry "pong" (rel_path ["ping"]) true];
        LinkEntry "up" (abs_path ["scan"]) false;
        LinkEntry "self" (rel_path ["self"]) true]) ->
     is_plain_dir cyclic_fs (["scan"] ++ dp) = inr true /\
     is_symlink cyclic_fs (["scan"] ++ dp) = inr false) /\
  (forall lp,
     In lp (links_of
       [DirectoryNode "sub"
          [LinkEntry "ping" (abs_path ["scan"; "sub"; "pong"]) true;
           LinkEntry "pong" (rel_path ["ping"]) true];
        LinkEntry "up" (abs_path ["scan"]) false;
        LinkEntry "self" (rel_path ["self"]) true]) ->
     is_symlink cyclic_fs (["scan"] ++ lp) = inr true /\
     ~ In lp (dirs_of
       [DirectoryNode "sub"
          [LinkEntry "ping" (abs_path ["scan"; "sub"; "pong"]) true;
           LinkEntry "pong" (rel_path ["ping"]) true];
        LinkEntry "up" (abs_path ["scan"]) false;
        LinkEntry "self" (rel_path ["self"]) true])).
Proof.
  apply (links_are_leaves cyclic_fs [] 4 ["scan"] None _ true).
  vm_compute. reflexivity.
Defined.

(** X6.  A larger depth limit never hides a link: every link shown under a
    limit is shown under every limit that admits at least the same depths,
    and so under no limit at all. *)
Theorem larger_limit_shows_more :
  forall fs cwd fuel fuel' root m m' children found children' found',
    limit_le m m' ->
    build_symlink_tree fs cwd fuel root root 0 m = Some (inr (children, found)) ->
    build_symlink_tree fs cwd fuel' root root 0 m'
      = Some (inr (children', found')) ->
    incl (links_of children) (links_of children').
Proof.
  intros fs cwd fuel fuel' root m m' children found children' found' Hle H H'.
  intros lp Hlp.
  assert (H0 := H). rewrite <- (app_nil_r root) in H0 at 2.
  pose proof (build_links_visible _ _ _ _ _ _ _ _ _ H0 lp Hlp) as V.
  destruct (build_links_sound _ _ _ _ _ _ _ _ _ H0 lp Hlp) as [_ W].
  rewrite app_nil_r in V. cbn [List.length Nat.add] in W.
  eapply (build_links_complete fs cwd root lp V fuel' root [] m' children' found').
  - rewrite app_nil_r. reflexivity.
  - apply Hle. exact W.
  - exact H'.
Qed.

(** The scenario under the limit 1 and under no limit. *)
Lemma larger_limit_shows_more_witness :
  incl (links_of [LinkEntry "c" (rel_path ["a"]) true;
                  LinkEntry "b" (abs_path ["missing"]) true])
       (links_of scenario_children).
Proof.
  apply (larger_limit_shows_more scenario_fs [] 3 3 ["scan"] (Some 1%Z) None
           _ true _ true).
  - intros x _. reflexivity.
  - vm_compute. reflexivity.
  - vm_compute. reflexivity.
Defined.

(** X7.  Under a depth limit of 0 or less nothing is ever shown: once the
    root has passed its two tests, [main] prints that no links were found
    and returns 0, whatever the directory holds. *)
Theorem depth_zero_shows_nothing :
  forall fs cwd fuel args_path d r,
    (d <= 0)%Z ->
    path_exists fs (absolute cwd args_path) = inr true ->
    is_dir fs (absolute cwd args_path) = inr true ->
    main fs cwd fuel args_path (Some d) = Some r ->
    r = Run [NoSymlinksFound (absolute cwd args_path)] (inr 0%Z).
Proof.
  intros fs cwd fuel a d r Hd E D. unfold main. rewrite E, D.
  destruct (build_symlink_tree fs cwd fuel _ _ 0 (Some d)) as [o|] eqn:B;
    [|discriminate].
  assert (B' := B). rewrite <- (app_nil_r (absolute cwd a)) in B' at 2.
  destruct (build_symlink_tree_no_raise _ _ _ _ _ _ _ _ B')
    as (children & found & ->).
  destruct found; [|intros H; inversion H; reflexivity].
  exfalso.
  destruct (build_found_links _ _ _ _ _ _ _ _ _ B) as [T _].
  destruct (T eq_refl) as (lp & Hne & Hlp).
  destruct (build_links_sound _ _ _ _ _ _ _ _ _ B' lp Hlp) as [_ W].
  cbn in W. apply Z.leb_le in W.
  destruct lp; [congruence|]. cbn [List.length] in W. lia.
Qed.

(** The scenario of the specification, which holds three links, under
    [--depth 0]. *)
Lemma depth_zero_shows_nothing_witness :
  Run [NoSymlinksFound ["scan"]] (inr 0%Z)
  = Run [NoSymlinksFound (absolute [] (abs_path ["scan"]))] (inr 0%Z).
Proof.
  apply (depth_zero_shows_nothing scenario_fs [] 3 (abs_path ["scan"]) 0).
  - lia.
  - vm_compute. reflexivity.
  - vm_compute. reflexivity.
  - vm_compute. reflexivity.
Defined.

(** ** The summary count and the shown links *)

(** *** The summary never counts fewer links than the tree shows *)

Lemma Forall2_sum_le {A B} (g : B -> nat) (v : A -> nat) : forall es ls,
  Forall2 (fun e l => g l <= v e) es ls ->
  list_sum (map g ls) <= list_sum (map v es).
Proof.
  induction 1 as [|e l es ls H F IH]; [reflexivity|].
  cbn [map]. cbn [list_sum fold_right]. fold (list_sum (map g ls)).
  fold (list_sum (map v es)). lia.
Qed.

Lemma list_sum_map_add {A} (f g : A -> nat) (l : list A) :
  list_sum (map f l) + list_sum (map g l)
  = list_sum (map (fun x => f x + g x) l).
Proof.
  induction l as [|x l IH]; [reflexivity|].
  cbn [map]. cbn [list_sum fold_right].
  fold (list_sum (map f l)). fold (list_sum (map g l)).
  fold (list_sum (map (fun x => f x + g x) l)). lia.
Qed.

Lemma scan_covers_tree fs cwd root m :
  forall f2 fuel suffix d children found ds,
    build_symlink_tree fs cwd fuel root (root ++ suffix) d m
      = Some (inr (children, found)) ->
    iterate_directories fs f2 (root ++ suffix) = Some (inr ds) ->
    count_links children <= scan_total fs root m ds.
Proof.
  induction f2 as [|f2 IH]; intros fuel suffix d children found ds HB HI;
    [discriminate|].
  destruct fuel as [|fuel]; [discriminate|].
  cbn [iterate_directories] in HI.
  apply build_inv in HB.
  destruct HB as [(-> & _ & B)|[(msg & e & -> & _ & E)|(es & ls & B & HS & F & -> & _)]].
  - cbn. lia.
  - cbn. lia.
  - pose proof (sorted_entries_perm _ _ _ HS) as (es0 & I & Perm).
    rewrite I in HI.
    destruct (subdirectories fs (iterate_directories fs f2) es0)
      as [[?|ds']|] eqn:R; try discriminate.
    inversion HI; subst ds; clear HI.
    pose proof (iterdir_listed _ _ _ I) as HL0.
    destruct (subdirectories_total fs root m f2 _ _ _ HL0 R) as [E D].
    change ((root ++ suffix) :: ds') with ([root ++ suffix] ++ ds').
    rewrite scan_total_app, E.
    assert (E0 : scan_total fs root m [root ++ suffix]
                 = list_sum (map (counted fs root m) es0)).
    { unfold scan_total, select_children. cbn. rewrite I, app_nil_r.
      reflexivity. }
    rewrite E0, count_links_concat, list_sum_map_add.
    rewrite <- (Permutation_list_sum
                  (Permutation_map (fun e => counted fs root m e +
                                             below_total fs root m f2 e) Perm)).
    apply Forall2_sum_le.
    eapply Forall2_weaken; [exact F|]. cbv beta. intros e l He C.
    assert (He0 : In e es0) by (eapply Permutation_in; eauto).
    rewrite Forall_forall in HL0. pose proof (HL0 e He0) as HLe.
    apply contribution_emission in C.
    inversion C as [|rel t Hs Hr Hw _|rel err Hs Hr Hw _|sub Hs Hp Hrec]; subst.
    + cbn. lia.
    + cbn [links_of flat_map link_paths app List.length].
      unfold counted. rewrite Hs, Hr.
      destruct m as [k|]; [cbn in Hw; rewrite Hw|]; cbv iota; lia.
    + cbn [links_of flat_map link_paths app List.length].
      unfold counted. rewrite Hs, Hr.
      destruct m as [k|]; [cbn in Hw; rewrite Hw|]; cbv iota; lia.
    + unfold below_total. rewrite Hp.
      destruct (D e He0 Hp) as [ds_e Ie]. rewrite Ie.
      destruct HLe as (ents & c & _ & _ & ->).
      rewrite <- app_assoc in Hrec, Ie.
      pose proof (IH _ _ _ _ _ _ Hrec Ie) as Le.
      cbn [links_of flat_map]. rewrite app_nil_r, link_paths_dir, length_map.
      eapply Nat.le_trans; [exact Le|lia].
Qed.

(** X8.  The number [main] prints after the tree is never smaller than the
    number of link labels in the tree, on any file system. *)
Theorem summary_never_undercounts :
  forall fs cwd fuel args_path args_depth r target info children n,
    main fs cwd fuel args_path args_depth = Some r ->
    printed r = [PrintedTree target info children; SymlinksShown n] ->
    count_links children <= n.
Proof.
  intros fs cwd fuel a depth r target info children n.
  unfold main.
  destruct (path_exists fs (absolute cwd a)) as [?|[]];
    try (intros H; inversion H; subst; discriminate).
  destruct (is_dir fs (absolute cwd a)) as [?|[]];
    try (intros H; inversion H; subst; discriminate).
  destruct (build_symlink_tree fs cwd fuel _ _ 0 depth)
    as [[?|[children0 []]]|] eqn:B;
    try (intros H; inversion H; subst; discriminate).
  unfold rglob.
  destruct (iterate_directories fs fuel (absolute cwd a)) as [[?|ds]|] eqn:I;
    try (intros H; inversion H; subst; discriminate).
  assert (Hps : Forall (fun q => exists d, below (absolute cwd a) d /\ listed fs d q)
                       (flat_map (select_children fs) ds)).
  { apply Forall_forall. intros q Hq. apply in_flat_map in Hq.
    destruct Hq as (d & Hd & Hq).
    pose proof (iterate_directories_below _ _ _ _ I) as Bl.
    rewrite Forall_forall in Bl. exists d. split; [auto|].
    unfold select_children in Hq.
    destruct (iterdir fs d) as [?|es] eqn:Id; [destruct Hq|].
    apply iterdir_listed in Id. rewrite Forall_forall in Id. auto. }
  rewrite (count_symlinks_sum _ _ _ _ Hps).
  intros H; inversion H; subst; clear H. cbn [printed].
  intros E; inversion E; subst.
  rewrite <- (app_nil_r (absolute cwd a)) in B at 2.
  rewrite <- (app_nil_r (absolute cwd a)) in I.
  apply (scan_covers_tree fs cwd _ depth fuel fuel [] 0%Z _ _ ds B I).
Qed.

(** On [secret_fs] the tree shows one link and the summary counts two. *)
Lemma summary_never_undercounts_witness :
  count_links [LinkEntry "b" (abs_path ["missing"]) true] <= 2.
Proof.
  apply (summary_never_undercounts secret_fs [] 3 (abs_path ["scan"]) None
           (Run [PrintedTree ["scan"] None
                   [LinkEntry "b" (abs_path ["missing"]) true];
                 SymlinksShown 2] (inr 0%Z))
           ["scan"] None).
  - vm_compute. reflexivity.
  - reflexivity.
Defined.

(** *** No link is shown twice *)

Lemma map_nodup {A B} (f : A -> B) (l : list A) :
  (forall x y, f x = f y -> x = y) -> NoDup l -> NoDup (map f l).
Proof.
  intros Inj. induction 1 as [|x l Hx N IH]; cbn [map]; constructor; auto.
  intros Hin. apply in_map_iff in Hin. destruct Hin as (y & E & Hy).
  apply Inj in E. subst. auto.
Qed.

Lemma entry_names_nodup es : NoDup (entry_names es).
Proof. unfold entry_names. apply NoDup_filter, NoDup_nodup. Qed.

Lemma iterdir_nodup fs cur es : iterdir fs cur = inr es -> NoDup es.
Proof.
  unfold iterdir, os_listdir.
  destruct (os_stat fs cur) as [e|[| |[] ents]]; try discriminate.
  intros H; inversion H; subst.
  apply map_nodup; [|apply entry_names_nodup].
  intros x y E. apply app_inv_head in E. congruence.
Qed.

Lemma flat_map_nodup {A B C} (R : A -> B -> Prop) (f : B -> list C)
    (h : C -> A) : forall es ls,
  Forall2 R es ls ->
  NoDup es ->
  (forall e l, In e es -> R e l -> NoDup (f l) /\ forall x, In x (f l) -> h x = e) ->
  NoDup (flat_map f ls).
Proof.
  induction 1 as [|e l es ls H F IH]; intros ND P; cbn [flat_map];
    [constructor|].
  inversion ND as [|? ? Hn ND']; subst.
  destruct (P e l (or_introl eq_refl) H) as [N1 K1].
  assert (N2 : NoDup (flat_map f ls)).
  { apply IH; auto. intros; apply P; simpl; auto. }
  clear IH. revert N1 K1. generalize (f l). intros xs.
  induction xs as [|x xs IHx]; intros N1 K1; [exact N2|].
  inversion N1 as [|? ? Hx N1']; subst. cbn [app]. constructor.
  - rewrite in_app_iff. intros [Hin|Hin]; [auto|].
    destruct (Forall2_flat_map_in _ _ _ _ _ F Hin) as (e' & l' & He' & _ & R' & Hx').
    destruct (P e' l' (or_intror He') R') as [_ K'].
    pose proof (K' x Hx') as E1.
    rewrite (K1 x (or_introl eq_refl)) in E1. subst e'. exact (Hn He').
  - apply IHx; auto. intros; apply K1; simpl; auto.
Qed.

Lemma build_links_nodup fs cwd : forall fuel root cur d m children found,
  build_symlink_tree fs cwd fuel root cur d m = Some (inr (children, found)) ->
  NoDup (links_of children).
Proof.
  induction fuel as [|fuel IH]; intros root cur d m children found H;
    [discriminate|].
  apply build_inv in H.
  destruct H as [(-> & _)|[(msg & e & -> & _)|(es & ls & _ & HS & F & -> & _)]].
  - constructor.
  - constructor.
  - rewrite links_of_concat.
    pose proof (sorted_entries_listed _ _ _ HS) as HL.
    rewrite Forall_forall in HL.
    destruct (sorted_entries_perm _ _ _ HS) as (es0 & I & Perm).
    apply (flat_map_nodup _ links_of (fun lp => cur ++ [hd EmptyString lp]) es ls F).
    + eapply Permutation_NoDup; [apply Permutation_sym; exact Perm|].
      eapply iterdir_nodup; eauto.
    + intros e l He C. destruct (HL e He) as (ents & c & _ & _ & ->).
      apply contribution_emission in C.
      inversion C as [|rel t _ _ _ _|rel err _ _ _ _|sub _ _ Hrec]; subst;
        cbn [links_of flat_map]; rewrite ?app_nil_r, ?name_app.
      * split; [constructor|intros ? []].
      * cbn [link_paths]. split; [repeat constructor; intros []|].
        intros x [<-|[]]. reflexivity.
      * cbn [link_paths]. split; [repeat constructor; intros []|].
        intros x [<-|[]]. reflexivity.
      * rewrite link_paths_dir. split.
        -- apply map_nodup; [intros x y E; congruence|].
           eapply IH; eauto.
        -- intros x Hx. apply in_map_iff in Hx. destruct Hx as (y & <- & _).
           reflexivity.
Qed.

(** X9.  No link is shown twice: the link labels of a returned tree stand
    for pairwise distinct paths. *)
Theorem no_link_shown_twice :
  forall fs cwd fuel root cur d m children found,
    build_symlink_tree fs cwd fuel root cur d m = Some (inr (children, found)) ->
    NoDup (links_of children).
Proof.
  intros. eapply build_links_nodup; eauto.
Qed.

Lemma no_link_shown_twice_witness : NoDup (links_of scenario_children).
Proof.
  apply (no_link_shown_twice scenario_fs [] 3 ["scan"] ["scan"] 0 None
           scenario_children true).
  vm_compute. reflexivity.
Defined.

(** * Proofs for the text helpers *)

(** ** Lengths and joined words *)

Lemma len_app (a b : text) : (len (a ++ b) = len a + len b)%Z.
Proof. unfold len. rewrite length_app. lia. Qed.

Lemma len_cons (c : char) (a : text) : (len (c :: a) = 1 + len a)%Z.
Proof. unfold len. cbn [List.length]. lia. Qed.

Lemma len_nonneg (a : text) : (0 <= len a)%Z.
Proof. unfold len. lia. Qed.

Lemma len_pos (a : text) : a <> [] -> (0 < len a)%Z.
Proof. destruct a; [congruence|]. intros _. rewrite len_cons. pose proof (len_nonneg a). lia. Qed.

Lemma join_snoc (ws : list text) (w : text) :
  join (ws ++ [w]) = match ws with [] => w | _ :: _ => join ws ++ SPACE :: w end.
Proof.
  induction ws as [|a ws IH]; [reflexivity|].
  destruct ws as [|b ws]; [reflexivity|].
  change (join ((a :: b :: ws) ++ [w])) with (a ++ SPACE :: join ((b :: ws) ++ [w])).
  rewrite IH.
  change (join (a :: b :: ws)) with (a ++ SPACE :: join (b :: ws)).
  rewrite <- app_assoc. reflexivity.
Qed.

Lemma len_join_snoc (ws : list text) (w : text) :
  (len (join (ws ++ [w])) =
   len (join ws) + len w + (if nonempty_text ws then 1 else 0))%Z.
Proof.
  rewrite join_snoc. destruct ws as [|a ws].
  - cbn [join nonempty_text]. change (len []) with 0%Z. lia.
  - rewrite len_app, len_cons. cbn [nonempty_text]. lia.
Qed.

Lemma join_cons (w : text) (ws : list text) :
  join (w :: ws) = match ws with [] => w | _ :: _ => w ++ SPACE :: join ws end.
Proof. destruct ws; reflexivity. Qed.

Lemma len_join_pos (ws : list text) :
  Forall is_word ws -> (len (join ws) >? 0)%Z = nonempty_text ws.
Proof.
  intros H. destruct ws as [|w ws]; [reflexivity|].
  cbn [nonempty_text]. apply Z.gtb_lt.
  inversion H as [|? ? [Hw _] _]; subst.
  rewrite join_cons. destruct ws.
  - now apply len_pos.
  - rewrite len_app. pose proof (len_pos w Hw). pose proof (len_nonneg (SPACE :: join (t :: ws))). lia.
Qed.

(** ** Splitting *)

Lemma no_space_app (a b : text) : no_space a -> no_space b -> no_space (a ++ b).
Proof. unfold no_space. intros. apply Forall_app. now split. Qed.

Lemma split_from_words : forall s cur,
  no_space cur -> Forall is_word (split_from cur s).
Proof.
  induction s as [|c s IH]; intros cur Hc; cbn [split_from].
  - destruct cur; constructor; [|constructor]. split; [discriminate|assumption].
  - destruct (is_space c) eqn:E.
    + destruct cur.
      * apply IH. constructor.
      * constructor; [split; [discriminate|assumption]|]. apply IH. constructor.
    + apply IH. apply no_space_app; [assumption|]. constructor; [assumption|constructor].
Qed.

Lemma split_words (s : text) : Forall is_word (split s).
Proof. apply split_from_words. constructor. Qed.

Lemma split_from_word : forall w cur rest,
  no_space w -> split_from cur (w ++ rest) = split_from (cur ++ w) rest.
Proof.
  induction w as [|c w IH]; intros cur rest H.
  - now rewrite app_nil_r.
  - inversion H as [|? ? Hc Hw]; subst.
    cbn [app split_from]. rewrite Hc.
    rewrite IH by assumption. now rewrite <- app_assoc.
Qed.

Lemma split_join : forall ws, Forall is_word ws -> split (join ws) = ws.
Proof.
  unfold split.
  induction ws as [|w ws IH]; intros H; [reflexivity|].
  inversion H as [|? ? [Hne Hw] Hws]; subst.
  rewrite join_cons. destruct ws as [|w' ws].
  - rewrite <- (app_nil_r w) at 1. rewrite split_from_word by assumption.
    cbn. destruct w; [congruence|reflexivity].
  - rewrite split_from_word by assumption. cbn [app split_from].
    change (is_space SPACE) with true. cbv iota.
    destruct w; [congruence|]. f_equal. now apply IH.
Qed.

Lemma flat_map_split_join : forall groups,
  Forall (Forall is_word) groups ->
  flat_map split (map join groups) = concat groups.
Proof.
  induction groups as [|g gs IH]; intros H; [reflexivity|].
  inversion H; subst. cbn [map flat_map concat].
  rewrite split_join by assumption. f_equal. now apply IH.
Qed.

(** ** The loop of [_wrap_text] fills groups of words *)

Lemma wrap_words_fill width : forall words lines cur,
  Forall is_word words -> Forall is_word cur ->
  wrap_words width words lines cur (len (join cur)) =
  lines ++ map join (fill width words cur).
Proof.
  induction words as [|w rest IH]; intros lines cur Hw Hc; cbn [wrap_words fill].
  - destruct cur; cbn; [now rewrite app_nil_r|reflexivity].
  - inversion Hw as [|? ? Hw1 Hrest]; subst.
    destruct (len (join cur) + len w + (if nonempty_text cur then 1 else 0) <=? width)%Z.
    + rewrite (len_join_pos cur Hc).
      replace (len (join cur) + (len w + (if nonempty_text cur then 1 else 0)))%Z
        with (len (join (cur ++ [w]))) by (rewrite len_join_snoc; lia).
      apply IH; [assumption|]. apply Forall_app. split; [assumption|]. now constructor.
    + change (len w) with (len (join [w])).
      rewrite IH by (try assumption; now constructor).
      destruct cur; cbn [nonempty_text app map]; [reflexivity|].
      now rewrite <- app_assoc.
Qed.

Lemma wrap_words_split (t : text) (width : Z) :
  wrap_words width (split t) [] [] 0 = map join (fill width (split t) []).
Proof.
  change 0%Z with (len (join [])).
  rewrite wrap_words_fill; [reflexivity|apply split_words|constructor].
Qed.

Lemma fill_concat width : forall words cur,
  concat (fill width words cur) = cur ++ words.
Proof.
  induction words as [|w rest IH]; intros cur; cbn [fill].
  - destruct cur; cbn; [reflexivity|]. now rewrite !app_nil_r.
  - destruct (_ <=? _)%Z.
    + rewrite IH. now rewrite <- app_assoc.
    + rewrite concat_app, IH. destruct cur; cbn; [reflexivity|].
      now rewrite app_nil_r.
Qed.

Lemma fill_words width : forall words cur,
  Forall is_word words -> Forall is_word cur ->
  Forall (Forall is_word) (fill width words cur).
Proof.
  induction words as [|w rest IH]; intros cur Hw Hc; cbn [fill].
  - destruct cur; cbn [nonempty_text]; [constructor|constructor; [assumption|constructor]].
  - inversion Hw; subst. destruct (_ <=? _)%Z.
    + apply IH; [assumption|]. apply Forall_app. split; [assumption|]. now constructor.
    + apply Forall_app. split.
      * destruct cur; cbn [nonempty_text]; [constructor|constructor; [assumption|constructor]].
      * apply IH; [assumption|]. now constructor.
Qed.


Lemma fill_head width : forall words cur,
  cur <> [] -> exists more groups, fill width words cur = (cur ++ more) :: groups.
Proof.
  induction words as [|w rest IH]; intros cur Hc; cbn [fill].
  - destruct cur; [congruence|]. exists [], []. now rewrite app_nil_r.
  - destruct (_ <=? _)%Z.
    + destruct (IH (cur ++ [w])) as (more & groups & E).
      { destruct cur; discriminate. }
      exists (w :: more), groups. rewrite E. now rewrite <- app_assoc.
    + destruct cur; [congruence|]. exists [], (fill width rest [w]).
      cbn. now rewrite app_nil_r.
Qed.

Lemma fill_greedy width : forall words cur, greedy width (fill width words cur).
Proof.
  induction words as [|w rest IH]; intros cur; cbn [fill].
  - destruct cur; cbn; auto.
  - destruct (len (join cur) + len w + (if nonempty_text cur then 1 else 0) <=? width)%Z eqn:E.
    + apply IH.
    + destruct cur as [|c cur]; [apply IH|].
      cbn [nonempty_text app] in *.
      destruct (fill_head width rest [w]) as (more & groups & E'); [discriminate|].
      pose proof (IH [w]) as G. rewrite E' in *.
      split; [|exact G].
      intros w0 Hw0. cbn in Hw0. injection Hw0 as <-.
      apply Z.leb_gt in E. lia.
Qed.

Lemma greedy_at width : forall pre g1 g2 post w,
  greedy width (pre ++ g1 :: g2 :: post) -> hd_error g2 = Some w ->
  (width < len (join g1) + 1 + len w)%Z.
Proof.
  induction pre as [|p pre IH]; intros g1 g2 post w G H.
  - destruct G as [G _]. now apply G.
  - destruct G as [_ G]. now apply (IH g1 g2 post).
Qed.

Lemma map_eq_two {A B} (f : A -> B) : forall l pre b1 b2 post,
  map f l = pre ++ b1 :: b2 :: post ->
  exists lpre a1 a2 lpost,
    l = lpre ++ a1 :: a2 :: lpost /\ f a1 = b1 /\ f a2 = b2.
Proof.
  intros l pre b1 b2 post E.
  apply map_eq_app in E. destruct E as (lpre & l1 & -> & _ & E).
  destruct l1 as [|a1 [|a2 lpost]]; try discriminate.
  cbn in E. injection E as E1 E2 _.
  now exists lpre, a1, a2, lpost.
Qed.



(** X11.  Wrapping loses nothing and adds nothing but white space: read
    word by word, the lines of [_wrap_text] are the words of the text, in
    their order. *)
Theorem wrapping_keeps_the_words (t : text) (width : Z) :
  flat_map split (_wrap_text t width) = split t.
Proof.
  unfold _wrap_text. destruct (len t <=? width)%Z.
  - cbn. apply app_nil_r.
  - cbv zeta. rewrite wrap_words_split.
    destruct (map join (fill width (split t) [])) as [|l ls] eqn:El.
    + cbn. apply app_nil_r.
    + cbn [nonempty_text]. rewrite <- El.
      rewrite flat_map_split_join.
      * apply fill_concat.
      * apply fill_words; [apply split_words|constructor].
Qed.

(** X12.  The lines are filled greedily: the first word of a line would
    not have fitted at the end of the line before it. *)
Theorem wrapping_is_greedy (t : text) (width : Z)
    (pre : list text) (l1 l2 : text) (post : list text) (w : text) (ws : list text) :
  _wrap_text t width = pre ++ l1 :: l2 :: post ->
  split l2 = w :: ws ->
  (width < len l1 + 1 + len w)%Z.
Proof.
  intros E Hw. unfold _wrap_text in E.
  destruct (len t <=? width)%Z.
  { destruct pre as [|? [|? ?]]; discriminate. }
  cbv zeta in E. rewrite wrap_words_split in E.
  destruct (map join (fill width (split t) [])) as [|l ls] eqn:El.
  { destruct pre as [|? [|? ?]]; discriminate. }
  cbn [nonempty_text] in E. rewrite <- El in E.
  apply map_eq_two in E. destruct E as (gpre & g1 & g2 & gpost & Ef & <- & <-).
  pose proof (fill_greedy width (split t) []) as G. rewrite Ef in G.
  pose proof (fill_words width (split t) [] (split_words t) (Forall_nil _)) as W.
  rewrite Ef in W. apply Forall_app in W. destruct W as [_ W].
  inversion W as [|? ? _ W']; subst. inversion W' as [|? ? W2 _]; subst.
  rewrite (split_join g2 W2) in Hw.
  apply (greedy_at width gpre g1 g2 gpost w G). now rewrite Hw.
Qed.

Lemma wrapping_is_greedy_witness :
  (7 < len (text_of "aaa bbb") + 1 + len (text_of "ccc"))%Z.
Proof.
  apply (wrapping_is_greedy (text_of "aaa bbb ccc dd") 7 []
           (text_of "aaa bbb") (text_of "ccc dd") [] (text_of "ccc") [text_of "dd"]).
  - vm_compute. reflexivity.
  - vm_compute. reflexivity.
Defined.

(** ** Truncated descriptions *)

Lemma rfind_space_from_spec : forall s i found,
  (rfind_space_from i found s = found /\ ~ In SPACE s) \/
  (exists a b, s = a ++ SPACE :: b /\ ~ In SPACE b /\
               rfind_space_from i found s = (i + len a)%Z).
Proof.
  induction s as [|c s IH]; intros i found; cbn [rfind_space_from].
  - left. split; [reflexivity|intros []].
  - destruct (IH (i + 1)%Z (if (c =? SPACE)%N then i else found))
      as [[E Hn]|(a & b & -> & Hb & E)].
    + destruct (c =? SPACE)%N eqn:Ec.
      * apply N.eqb_eq in Ec. subst c. right. exists [], s.
        repeat split; [assumption|]. rewrite E. change (len []) with 0%Z. lia.
      * apply N.eqb_neq in Ec. left. split; [assumption|].
        intros [H|H]; [now apply Ec|now apply Hn].
    + right. exists (c :: a), b. repeat split; [assumption|].
      rewrite E, len_cons. lia.
Qed.

Lemma len_firstn (n : nat) (s : text) : (len (firstn n s) <= Z.of_nat n)%Z.
Proof. unfold len. pose proof (firstn_le_length n s). lia. Qed.

Lemma slice_to_nonneg (s : text) (k : Z) :
  (0 <= k)%Z -> slice_to s k = firstn (Z.to_nat k) s.
Proof. intros H. unfold slice_to. destruct (k <? 0)%Z eqn:E; [|reflexivity]. apply Z.ltb_lt in E. lia. Qed.

Lemma len_slice_to (s : text) (k : Z) : (0 <= k)%Z -> (len (slice_to s k) <= k)%Z.
Proof. intros H. rewrite slice_to_nonneg by assumption. pose proof (len_firstn (Z.to_nat k) s). lia. Qed.

(** The cut is made in front of the last space, unless that is the first
    character or there is none. *)
Lemma cut_at_word_spec (trunc : text) :
  (exists a b, trunc = a ++ SPACE :: b /\ a <> [] /\ ~ In SPACE b /\
               cut_at_word trunc = a ++ dots) \/
  (~ In SPACE (tl trunc) /\ cut_at_word trunc = trunc ++ dots).
Proof.
  unfold cut_at_word, rfind_space. cbv zeta.
  destruct (rfind_space_from_spec trunc 0 (-1)) as [[E Hn]|(a & b & -> & Hb & E)].
  - right. rewrite E. cbn. split; [|reflexivity].
    intros H. apply Hn. destruct trunc; [exact H|now right].
  - rewrite E. destruct a as [|c a].
    + right. cbn. split; [exact Hb|reflexivity].
    + left. exists (c :: a), b. repeat split; [discriminate|assumption|].
      pose proof (len_nonneg a). rewrite len_cons.
      replace (0 + (1 + len a) >? 0)%Z with true by (symmetry; apply Z.gtb_lt; lia).
      rewrite slice_to_nonneg by lia.
      replace (Z.to_nat (0 + (1 + len a))) with (List.length (c :: a) + 0)%nat
        by (unfold len; cbn [List.length]; lia).
      rewrite firstn_app_2. cbn [firstn]. now rewrite app_nil_r.
Qed.

Lemma len_cut_at_word (trunc : text) : (len (cut_at_word trunc) <= len trunc + 3)%Z.
Proof.
  destruct (cut_at_word_spec trunc) as [(a & b & -> & _ & _ & ->)|[_ ->]];
    rewrite !len_app; change (len dots) with 3%Z.
  - rewrite len_cons. pose proof (len_nonneg b). lia.
  - lia.
Qed.

(** X13.  With a limit that is not negative, [extract_use_when] returns
    at most [max_len + 3] characters: the three dots come on top of the
    limit. *)
Theorem extract_use_when_length (description : text) (max_len : Z) :
  (0 <= max_len)%Z ->
  (len (extract_use_when description max_len) <= max_len + 3)%Z.
Proof.
  intros H. unfold extract_use_when. cbv zeta.
  set (u := match search_use_when (join (split description)) with
            | Some m => m | None => join (split description) end).
  destruct (len u >? max_len)%Z eqn:E.
  - pose proof (len_cut_at_word (slice_to u max_len)).
    pose proof (len_slice_to u max_len H). lia.
  - pose proof (Zgt_cases (len u) max_len) as C. rewrite E in C. lia.
Qed.

Lemma extract_use_when_length_witness :
  (len (extract_use_when (text_of "Does things. Use when you need a thing done.") 12)
   <= 12 + 3)%Z.
Proof. apply extract_use_when_length. lia. Defined.

(** X14.  With a limit of at least three, [format_description] returns at
    most [max_len] characters, the dots included. *)
Theorem format_description_length (description : text) (max_len : Z) :
  (3 <= max_len)%Z ->
  (len (format_description description (Some max_len)) <= max_len)%Z.
Proof.
  intros H. unfold format_description. cbv zeta.
  set (desc := join (split description)).
  replace (max_len =? 0)%Z with false by (symmetry; apply Z.eqb_neq; lia).
  cbn [negb andb].
  destruct (len desc >? max_len)%Z eqn:E.
  - pose proof (len_cut_at_word (slice_to desc (max_len - 3))).
    pose proof (len_slice_to desc (max_len - 3)). lia.
  - pose proof (Zgt_cases (len desc) max_len) as C. rewrite E in C. lia.
Qed.

Lemma format_description_length_witness :
  (len (format_description (text_of "Does things for   you") (Some 12%Z)) <= 12)%Z.
Proof. apply format_description_length. lia. Defined.

(** ** The sentence that is searched for *)

Lemma starts_use_when_length (s : text) :
  starts_use_when s = true -> 8 <= List.length s.
Proof.
  do 8 (destruct s as [|? s]; [discriminate|]). intros _. cbn. lia.
Qed.

Lemma starts_use_when_app (h x : text) :
  List.length h = 8 -> starts_use_when (h ++ x) = starts_use_when h.
Proof.
  do 8 (destruct h as [|? h]; [discriminate|]).
  destruct h; [reflexivity|discriminate].
Qed.

Lemma starts_use_when_hd (s : text) :
  starts_use_when s = true -> hd_error s <> Some SPACE.
Proof.
  destruct s as [|c s]; [discriminate|].
  intros H [= ->]. do 7 (destruct s as [|? s]; [discriminate|]).
  discriminate.
Qed.

Lemma from_use_when_spec : forall s rest,
  from_use_when s = Some rest ->
  exists pre, s = pre ++ rest /\ starts_use_when rest = true /\
    forall pre' rest', s = pre' ++ rest' -> List.length pre' < List.length pre ->
      starts_use_when rest' = false.
Proof.
  induction s as [|c s IH]; intros rest H.
  - cbn in H. discriminate.
  - cbn [from_use_when] in H.
    destruct (starts_use_when (c :: s)) eqn:E.
    + injection H as <-. exists []. repeat split; [assumption|].
      intros ? ? _ L. cbn in L. lia.
    + destruct (IH rest H) as (pre & -> & Hs & Hl).
      exists (c :: pre). repeat split; [assumption|].
      intros pre' rest' E' L. destruct pre' as [|c' pre'].
      * cbn in E'. now rewrite <- E'.
      * cbn in E'. injection E' as <- E'. apply (Hl pre' rest' E').
        cbn in L. lia.
Qed.

Lemma from_use_when_none : forall s,
  from_use_when s = None ->
  forall pre rest, s = pre ++ rest -> starts_use_when rest = false.
Proof.
  induction s as [|c s IH]; intros H pre rest E.
  - destruct pre; [|discriminate]. cbn in E. now subst rest.
  - cbn [from_use_when] in H.
    destruct (starts_use_when (c :: s)) eqn:Es; [discriminate|].
    destruct pre as [|c' pre].
    + cbn in E. now rewrite <- E.
    + cbn in E. injection E as _ E. now apply (IH H pre).
Qed.

Lemma through_dot_spec : forall s r,
  through_dot s = Some r ->
  exists body post, r = body ++ [DOT] /\ s = r ++ post /\ ~ In DOT body.
Proof.
  induction s as [|c s IH]; intros r H; [discriminate|].
  cbn [through_dot] in H. destruct (c =? DOT)%N eqn:E.
  - apply N.eqb_eq in E. subst c. injection H as <-.
    exists [], s. repeat split. intros [].
  - apply N.eqb_neq in E. destruct (through_dot s) as [r'|] eqn:T; [|discriminate].
    injection H as <-. destruct (IH r' eq_refl) as (body & post & -> & -> & Hb).
    exists (c :: body), post. repeat split.
    intros [H|H]; [now apply E|now apply Hb].
Qed.

Lemma through_dot_none : forall s, through_dot s = None -> ~ In DOT s.
Proof.
  induction s as [|c s IH]; intros H; [intros []|].
  cbn [through_dot] in H. destruct (c =? DOT)%N eqn:E; [discriminate|].
  apply N.eqb_neq in E. destruct (through_dot s); [discriminate|].
  intros [H'|H']; [now apply E|now apply IH].
Qed.

Lemma app_eq_longer {A} : forall (a a' b b' : list A),
  a ++ b = a' ++ b' -> List.length a <= List.length a' ->
  exists x, a' = a ++ x /\ b = x ++ b'.
Proof.
  induction a as [|c a IH]; intros a' b b' E L.
  - exists a'. now split.
  - destruct a' as [|c' a']; [cbn in L; lia|].
    cbn in E. injection E as -> E.
    destruct (IH a' b b' E) as (x & -> & ->); [cbn in L; lia|].
    now exists x.
Qed.

Lemma app_eq_same_length {A} (a a' b b' : list A) :
  a ++ b = a' ++ b' -> List.length a = List.length a' -> a = a'.
Proof.
  intros E L. destruct (app_eq_longer a a' b b' E) as (x & -> & _); [lia|].
  rewrite length_app in L. destruct x; [now rewrite app_nil_r|cbn in L; lia].
Qed.

Lemma first_occurrence {A} (x : A) : forall a a' b b',
  a ++ x :: b = a' ++ x :: b' -> ~ In x a -> ~ In x a' -> a = a' /\ b = b'.
Proof.
  induction a as [|c a IH]; intros a' b b' E Ha Ha'.
  - destruct a' as [|c' a'].
    + cbn in E. injection E as E. now split.
    + cbn in E. injection E as <- _. exfalso. apply Ha'. now left.
  - destruct a' as [|c' a'].
    + cbn in E. injection E as -> _. exfalso. apply Ha. now left.
    + cbn in E. injection E as -> E.
      destruct (IH a' b b' E) as [-> ->].
      * intros H. apply Ha. now right.
      * intros H. apply Ha'. now right.
      * now split.
Qed.

Lemma matches_use_when_starts (m post : text) :
  matches_use_when m -> starts_use_when (m ++ post) = true.
Proof.
  intros (h & body & -> & Lh & Hs & _).
  rewrite <- app_assoc. now rewrite starts_use_when_app.
Qed.

(** X15.  The search of line 124 finds the first sentence of the form
    [Use when ... .] (in any case, no dot before the final one): the match
    lies in the text, nothing of that form starts before it, and nothing
    else of that form starts where it starts.  It finds nothing only when
    the text holds no such sentence. *)
Theorem search_use_when_leftmost (desc : text) :
  match search_use_when desc with
  | Some m =>
      exists pre post,
        desc = pre ++ m ++ post /\ matches_use_when m /\
        (forall pre' m' post', desc = pre' ++ m' ++ post' -> matches_use_when m' ->
           List.length pre <= List.length pre') /\
        (forall m' post', desc = pre ++ m' ++ post' -> matches_use_when m' -> m' = m)
  | None =>
      forall pre' m' post', desc = pre' ++ m' ++ post' -> ~ matches_use_when m'
  end.
Proof.
  unfold search_use_when.
  destruct (from_use_when desc) as [rest|] eqn:F.
  - destruct (from_use_when_spec desc rest F) as (pre & -> & Hs & Hl).
    assert (Left : forall pre' m' post',
               pre ++ rest = pre' ++ m' ++ post' -> matches_use_when m' ->
               List.length pre <= List.length pre').
    { intros pre' m' post' E M.
      destruct (Nat.le_gt_cases (List.length pre) (List.length pre')) as [L|L]; [exact L|].
      pose proof (Hl pre' (m' ++ post') E L) as N.
      rewrite (matches_use_when_starts m' post' M) in N. discriminate. }
    pose proof (starts_use_when_length rest Hs) as L8.
    destruct (through_dot (skipn 8 rest)) as [tail|] eqn:T.
    + destruct (through_dot_spec _ _ T) as (body & post & -> & Er & Hb).
      assert (M : matches_use_when (firstn 8 rest ++ body ++ [DOT])).
      { exists (firstn 8 rest), body. repeat split.
        - rewrite length_firstn. lia.
        - rewrite <- (starts_use_when_app (firstn 8 rest) (skipn 8 rest)).
          + now rewrite firstn_skipn.
          + rewrite length_firstn. lia.
        - exact Hb. }
      exists pre, post. repeat split.
      * f_equal. rewrite <- (firstn_skipn 8 rest) at 1. rewrite Er.
        now rewrite <- !app_assoc.
      * exact M.
      * exact Left.
      * intros m' post' E (h' & body' & -> & Lh' & _ & Hb').
        apply app_inv_head in E.
        rewrite <- (firstn_skipn 8 rest) in E. rewrite Er in E.
        rewrite <- !app_assoc in E.
        assert (Eh : firstn 8 rest = h').
        { apply (app_eq_same_length _ _ _ _ E). rewrite length_firstn. lia. }
        rewrite Eh in E. apply app_inv_head in E.
        cbn [app] in E.
        destruct (first_occurrence DOT body body' _ _ E Hb Hb') as [-> _].
        now rewrite Eh.
    + intros pre' m' post' E M.
      pose proof (Left pre' m' post' E M) as L.
      destruct (app_eq_longer _ _ _ _ E L) as (x & -> & Er).
      destruct M as (h' & body' & -> & Lh' & _ & _).
      apply (through_dot_none _ T).
      rewrite Er. rewrite <- !app_assoc.
      rewrite (app_assoc x h').
      rewrite skipn_app.
      apply in_or_app. right.
      replace (8 - List.length (x ++ h')) with 0 by (rewrite length_app; lia).
      cbn [skipn]. apply in_or_app. right. apply in_or_app. left. now left.
  - intros pre' m' post' E M.
    pose proof (from_use_when_none desc F pre' (m' ++ post') E) as N.
    rewrite (matches_use_when_starts m' post' M) in N. discriminate.
Qed.

(** ** Where the text is cut *)

Lemma join_hd : forall ws, Forall is_word ws -> hd_error (join ws) <> Some SPACE.
Proof.
  intros [|w ws] H; [discriminate|].
  inversion H as [|? ? [Hne Hw] _]; subst.
  rewrite join_cons. destruct w as [|c w]; [congruence|].
  inversion Hw as [|? ? Hc _]; subst.
  destruct ws; cbn; intros [= ->]; discriminate.
Qed.

Lemma sentence_hd (desc : text) :
  hd_error desc <> Some SPACE ->
  hd_error (match search_use_when desc with Some m => m | None => desc end)
  <> Some SPACE.
Proof.
  intros H. unfold search_use_when.
  destruct (from_use_when desc) as [rest|] eqn:F; [|exact H].
  destruct (through_dot (skipn 8 rest)); [|exact H].
  destruct (from_use_when_spec desc rest F) as (pre & _ & Hs & _).
  pose proof (starts_use_when_hd rest Hs) as Hh.
  pose proof (starts_use_when_length rest Hs) as L.
  destruct rest as [|c rest]; [cbn in L; lia|]. exact Hh.
Qed.

(** X16.  When the sentence is longer than the limit, what is returned is
    a beginning of the sentence followed by three dots; the beginning ends
    just in front of a space of the sentence, or else it is the first
    [max_len] characters and holds no space at all. *)
Theorem truncation_at_word_boundary (description : text) (max_len : Z) (u : text) :
  (0 <= max_len)%Z ->
  u = match search_use_when (join (split description)) with
      | Some m => m
      | None => join (split description)
      end ->
  (max_len < len u)%Z ->
  exists p q,
    u = p ++ q /\ q <> [] /\
    extract_use_when description max_len = p ++ dots /\
    (len p <= max_len)%Z /\
    (hd_error q = Some SPACE \/
     (p = firstn (Z.to_nat max_len) u /\ ~ In SPACE p)).
Proof.
  intros H0 Eu Hlen.
  assert (Hhd : hd_error u <> Some SPACE).
  { rewrite Eu. apply sentence_hd. apply join_hd. apply split_words. }
  unfold extract_use_when. cbv zeta. rewrite <- Eu.
  replace (len u >? max_len)%Z with true by (symmetry; apply Z.gtb_lt; lia).
  rewrite slice_to_nonneg by assumption.
  pose proof (firstn_skipn (Z.to_nat max_len) u) as Split.
  pose proof (len_firstn (Z.to_nat max_len) u) as Lf.
  destruct (cut_at_word_spec (firstn (Z.to_nat max_len) u))
    as [(a & b & Et & Ha & Hb & ->)|[Hn ->]].
  - exists a, (SPACE :: b ++ skipn (Z.to_nat max_len) u). repeat split.
    + rewrite <- Split at 1. rewrite Et. now rewrite <- app_assoc.
    + discriminate.
    + rewrite Et in Lf. rewrite len_app, len_cons in Lf.
      pose proof (len_nonneg b). lia.
    + now left.
  - exists (firstn (Z.to_nat max_len) u), (skipn (Z.to_nat max_len) u). repeat split.
    + now symmetry.
    + intros E. apply (f_equal (@List.length _)) in E.
      rewrite length_skipn in E. cbn in E. unfold len in Hlen. lia.
    + lia.
    + right. split; [reflexivity|].
      intros Hin. destruct (firstn (Z.to_nat max_len) u) as [|c t] eqn:Ef; [destruct Hin|].
      destruct u as [|c' u']; [destruct (Z.to_nat max_len); discriminate|].
      destruct (Z.to_nat max_len); [discriminate|]. cbn in Ef. injection Ef as -> Ef.
      destruct Hin as [Hin|Hin]; [|now apply Hn].
      apply Hhd. cbn. now rewrite Hin.
Qed.

Lemma truncation_at_word_boundary_witness :
  exists p q,
    text_of "Use when you need it." = p ++ q /\ q <> [] /\
    extract_use_when (text_of "A tool.  Use when you   need it. More.") 14 = p ++ dots /\
    (len p <= 14)%Z /\
    (hd_error q = Some SPACE \/
     (p = firstn (Z.to_nat 14) (text_of "Use when you need it.") /\ ~ In SPACE p)).
Proof.
  apply (truncation_at_word_boundary (text_of "A tool.  Use when you   need it. More.") 14).
  - lia.
  - vm_compute. reflexivity.
  - vm_compute. reflexivity.
Defined.

(** * Proofs for the README section *)

Import UpdateReadme.

Opaque START_MARKER END_MARKER.

(** ** Searching for a marker *)

Lemma text_eqb_eq : forall a b, text_eqb a b = true <-> a = b.
Proof.
  induction a as [|x a IH]; intros [|y b]; cbn [text_eqb]; split; intros H;
    try reflexivity; try discriminate.
  - apply andb_true_iff in H. destruct H as [H1 H2].
    apply N.eqb_eq in H1. apply IH in H2. now subst.
  - injection H as -> ->. apply andb_true_iff. split; [apply N.eqb_refl|now apply IH].
Qed.

Lemma starts_with_spec : forall pat s,
  starts_with pat s = true <-> exists r, s = pat ++ r.
Proof.
  induction pat as [|p pat IH]; intros s; cbn [starts_with].
  - split; [intros _; now exists s|reflexivity].
  - destruct s as [|c s].
    + split; [discriminate|intros (r & E); discriminate].
    + rewrite andb_true_iff, N.eqb_eq, IH. split.
      * intros [-> (r & ->)]. now exists r.
      * intros (r & E). cbn in E. injection E as -> ->. split; [reflexivity|now exists r].
Qed.

Lemma skipn_length_app {A} (a b : list A) : skipn (List.length a) (a ++ b) = b.
Proof. induction a; [reflexivity|assumption]. Qed.

Lemma starts_with_skipn (pat s : text) :
  starts_with pat s = true -> s = pat ++ skipn (List.length pat) s.
Proof.
  intros H. apply starts_with_spec in H. destruct H as (r & ->).
  now rewrite skipn_length_app.
Qed.

Lemma find_sub_spec pat : forall s a b,
  find_sub pat s = Some (a, b) ->
  s = a ++ pat ++ b /\
  forall a' b', s = a' ++ pat ++ b' -> List.length a <= List.length a'.
Proof.
  induction s as [|c s IH]; intros a b H.
  - cbn [find_sub] in H. destruct (starts_with pat []) eqn:E; [|discriminate].
    injection H as <- <-. split; [|intros; cbn; lia].
    now apply starts_with_skipn.
  - cbn [find_sub] in H. destruct (starts_with pat (c :: s)) eqn:E.
    + injection H as <- <-. split; [|intros; cbn; lia].
      now apply starts_with_skipn.
    + destruct (find_sub pat s) as [[a0 b0]|] eqn:F; [|discriminate].
      injection H as <- <-. destruct (IH a0 b0 eq_refl) as [-> L].
      split; [reflexivity|].
      intros a' b' E'. destruct a' as [|c' a'].
      * exfalso. cbn in E'.
        assert (S : starts_with pat (c :: a0 ++ pat ++ b0) = true)
          by (apply starts_with_spec; now exists b').
        rewrite S in E. discriminate.
      * cbn in E'. injection E' as _ E'. cbn. apply le_n_S. now apply (L a' b').
Qed.

Lemma find_sub_none pat : forall s,
  find_sub pat s = None -> forall a b, s <> a ++ pat ++ b.
Proof.
  induction s as [|c s IH]; intros H a b E.
  - cbn [find_sub] in H. destruct (starts_with pat []) eqn:S; [discriminate|].
    destruct a; [|discriminate]. cbn in E.
    assert (S' : starts_with pat [] = true) by (apply starts_with_spec; now exists b).
    rewrite S' in S. discriminate.
  - cbn [find_sub] in H. destruct (starts_with pat (c :: s)) eqn:S; [discriminate|].
    destruct (find_sub pat s) as [[a0 b0]|] eqn:F; [discriminate|].
    destruct a as [|c' a].
    + cbn in E.
      assert (S' : starts_with pat (c :: s) = true) by (apply starts_with_spec; now exists b).
      rewrite S' in S. discriminate.
    + cbn in E. injection E as _ E. now apply (IH eq_refl a b).
Qed.

(** The first occurrence is what [find_sub] returns. *)
Lemma find_sub_first pat (s a b : text) :
  s = a ++ pat ++ b ->
  (forall a' b', s = a' ++ pat ++ b' -> List.length a <= List.length a') ->
  find_sub pat s = Some (a, b).
Proof.
  intros E L. destruct (find_sub pat s) as [[a0 b0]|] eqn:F.
  - destruct (find_sub_spec pat s a0 b0 F) as [E0 L0].
    assert (Ea : a0 = a).
    { apply (app_eq_same_length a0 a (pat ++ b0) (pat ++ b)); [congruence|].
      apply Nat.le_antisymm; [now apply (L0 a b)|now apply (L a0 b0)]. }
    subst a0. rewrite E in E0. apply app_inv_head in E0. apply app_inv_head in E0.
    now subst.
  - exfalso. exact (find_sub_none pat s F a b E).
Qed.

(** An occurrence that starts before [pre] in [pre ++ pat ++ r1] lies in
    [pre ++ pat], whatever follows. *)
Lemma occurrence_transfer (pat pre r1 a' b' : text) :
  pre ++ pat ++ r1 = a' ++ pat ++ b' -> List.length a' < List.length pre ->
  forall r2, exists b'', pre ++ pat ++ r2 = a' ++ pat ++ b''.
Proof.
  intros E L r2.
  symmetry in E. destruct (app_eq_longer a' pre _ _ E) as (x & -> & E1); [lia|].
  rewrite app_assoc in E1.
  destruct (app_eq_longer pat (x ++ pat) _ _ E1) as (y & Ey & _).
  { rewrite length_app. lia. }
  exists (y ++ r2). rewrite <- app_assoc. f_equal.
  rewrite app_assoc, Ey. now rewrite <- app_assoc.
Qed.

Lemma find_sub_same_prefix pat (pre r1 r2 : text) :
  find_sub pat (pre ++ pat ++ r1) = Some (pre, r1) ->
  find_sub pat (pre ++ pat ++ r2) = Some (pre, r2).
Proof.
  intros F. destruct (find_sub_spec pat _ _ _ F) as [_ L].
  apply find_sub_first; [reflexivity|].
  intros a' b' E.
  destruct (Nat.le_gt_cases (List.length pre) (List.length a')) as [H|H]; [exact H|].
  destruct (occurrence_transfer pat pre r2 a' b' E H r1) as (b'' & E').
  pose proof (L a' b'' E'). lia.
Qed.

(** ** The section that is searched for *)

Lemma search_section_spec (content before middle after : text) :
  search_section content = Some (before, middle, after) ->
  content = before ++ START_MARKER ++ middle ++ END_MARKER ++ after /\
  find_sub START_MARKER content = Some (before, middle ++ END_MARKER ++ after) /\
  find_sub END_MARKER (middle ++ END_MARKER ++ after) = Some (middle, after).
Proof.
  unfold search_section. intros H.
  destruct (find_sub START_MARKER content) as [[b0 rest]|] eqn:F1; [|discriminate].
  destruct (find_sub END_MARKER rest) as [[m0 a0]|] eqn:F2; [|discriminate].
  injection H as -> -> ->.
  destruct (find_sub_spec _ _ _ _ F1) as [E1 _].
  destruct (find_sub_spec _ _ _ _ F2) as [E2 _].
  subst rest. rewrite F2. now repeat split.
Qed.

(** X17.  The section that is looked for is the first one: it begins at
    the first start marker and ends at the first end marker after it.  No
    section begins earlier, none that begins there is shorter, and nothing
    is found only when the text holds no start marker followed by an end
    marker. *)
Theorem section_is_the_first content :
  match search_section content with
  | Some (before, middle, after) =>
      content = before ++ START_MARKER ++ middle ++ END_MARKER ++ after /\
      (forall before' middle' after',
         content = before' ++ START_MARKER ++ middle' ++ END_MARKER ++ after' ->
         List.length before <= List.length before') /\
      (forall middle' after',
         content = before ++ START_MARKER ++ middle' ++ END_MARKER ++ after' ->
         List.length middle <= List.length middle')
  | None =>
      forall before' middle' after',
        content <> before' ++ START_MARKER ++ middle' ++ END_MARKER ++ after'
  end.
Proof.
  destruct (search_section content) as [[[before middle] after]|] eqn:S.
  - destruct (search_section_spec _ _ _ _ S) as (E & F1 & F2).
    destruct (find_sub_spec _ _ _ _ F1) as [_ L1].
    destruct (find_sub_spec _ _ _ _ F2) as [_ L2].
    repeat split; [exact E| |].
    + intros b' m' a' E'. now apply (L1 b' (m' ++ END_MARKER ++ a')).
    + intros m' a' E'. apply (L2 m' a').
      rewrite E in E'. apply app_inv_head in E'. now apply app_inv_head in E'.
  - intros b' m' a' E. unfold search_section in S.
    destruct (find_sub START_MARKER content) as [[b0 rest]|] eqn:F1.
    + destruct (find_sub END_MARKER rest) as [[m0 a0]|] eqn:F2; [discriminate|].
      destruct (find_sub_spec _ _ _ _ F1) as [E1 L1].
      pose proof (L1 b' (m' ++ END_MARKER ++ a') E) as L.
      rewrite E1 in E.
      destruct (app_eq_longer _ _ _ _ E L) as (x & -> & Er).
      rewrite (app_assoc x), (app_assoc (x ++ START_MARKER)) in Er.
      destruct (app_eq_longer START_MARKER ((x ++ START_MARKER) ++ m') _ _ Er)
        as (y & Ey & Erest).
      { rewrite !length_app. lia. }
      apply (find_sub_none _ _ F2 y a'). exact Erest.
    + exact (find_sub_none _ _ F1 b' (m' ++ END_MARKER ++ a') E).
Qed.

(** ** Updating *)

(** X18.  [update_readme] returns [True] exactly when the content of the
    file has changed. *)
Theorem update_reports_change_exactly (readme_content tree_content : text) :
  snd (fst (update_readme readme_content tree_content)) = true <->
  fst (fst (update_readme readme_content tree_content)) <> readme_content.
Proof.
  unfold update_readme.
  destruct (search_section readme_content) as [[[before middle] after]|] eqn:S.
  - cbv zeta.
    destruct (text_eqb (START_MARKER ++ middle ++ END_MARKER)
                (START_MARKER ++ tree_content ++ NL :: END_MARKER)) eqn:E.
    + cbn. split; [discriminate|congruence].
    + cbn. split; [|reflexivity]. intros _ C.
      destruct (search_section_spec _ _ _ _ S) as (Ec & _).
      rewrite Ec in C. apply app_inv_head in C.
      assert (E' : text_eqb (START_MARKER ++ middle ++ END_MARKER)
                     (START_MARKER ++ tree_content ++ NL :: END_MARKER) = true).
      { apply text_eqb_eq. apply (app_inv_tail after).
        rewrite <- !app_assoc. cbn [app]. rewrite <- !app_assoc in C. cbn [app] in C.
        now symmetry. }
      rewrite E' in E. discriminate.
  - cbn. split; [discriminate|congruence].
Qed.

(** After an update the section holds the tree and a new line. *)
Lemma search_section_updated (content before middle after tree_content : text) :
  search_section content = Some (before, middle, after) ->
  clean tree_content ->
  search_section (before ++ (START_MARKER ++ tree_content ++ NL :: END_MARKER) ++ after)
  = Some (before, tree_content ++ [NL], after).
Proof.
  intros S C. destruct (search_section_spec _ _ _ _ S) as (E & F1 & _).
  rewrite E in F1.
  unfold search_section.
  replace (before ++ (START_MARKER ++ tree_content ++ NL :: END_MARKER) ++ after)
    with (before ++ START_MARKER ++ (tree_content ++ [NL]) ++ END_MARKER ++ after)
    by (rewrite <- ?app_assoc; cbn [app]; now rewrite <- ?app_assoc).
  rewrite (find_sub_same_prefix _ _ _ ((tree_content ++ [NL]) ++ END_MARKER ++ after) F1).
  unfold clean in C.
  replace (tree_content ++ NL :: END_MARKER)
    with ((tree_content ++ [NL]) ++ END_MARKER ++ []) in C
    by (rewrite <- ?app_assoc; cbn [app]; now rewrite ?app_nil_r).
  now rewrite (find_sub_same_prefix _ _ _ after C).
Qed.

Lemma new_section_eq (tree_content : text) :
  text_eqb (START_MARKER ++ (tree_content ++ [NL]) ++ END_MARKER)
    (START_MARKER ++ tree_content ++ NL :: END_MARKER) = true.
Proof. apply text_eqb_eq. now rewrite <- !app_assoc. Qed.

(** X19.  Updating twice is updating once: when the tree does not hold
    the end marker, a second run with the same tree finds the file up to
    date and leaves it alone. *)
Theorem update_is_idempotent (readme_content tree_content : text)
    (content : text) (changed : bool) (said : message) :
  clean tree_content ->
  update_readme readme_content tree_content = (content, changed, said) ->
  update_readme content tree_content =
  (content, false, if changed then AlreadyUpToDate else said).
Proof.
  intros C H. unfold update_readme in H.
  destruct (search_section readme_content) as [[[before middle] after]|] eqn:S.
  - cbv zeta in H.
    destruct (text_eqb (START_MARKER ++ middle ++ END_MARKER)
                (START_MARKER ++ tree_content ++ NL :: END_MARKER)) eqn:E.
    + injection H as <- <- <-. unfold update_readme. rewrite S. cbv zeta. now rewrite E.
    + injection H as <- <- <-. unfold update_readme.
      rewrite (search_section_updated _ _ _ _ _ S C). cbv zeta.
      now rewrite new_section_eq.
  - injection H as <- <- <-. unfold update_readme. now rewrite S.
Qed.

Lemma update_is_idempotent_witness :
  update_readme
    (text_of "# Title" ++ NL :: START_MARKER ++ text_of "dot-agents" ++ NL :: END_MARKER ++ [NL])
    (text_of "dot-agents") =
  (text_of "# Title" ++ NL :: START_MARKER ++ text_of "dot-agents" ++ NL :: END_MARKER ++ [NL],
   false, AlreadyUpToDate).
Proof.
  apply (update_is_idempotent
           (text_of "# Title" ++ NL :: START_MARKER ++ text_of "old" ++ NL :: END_MARKER ++ [NL])
           (text_of "dot-agents") _ true Updated).
  - vm_compute. reflexivity.
  - vm_compute. reflexivity.
Defined.

(** ** Stripping *)

Lemma lstrip_snoc (c : char) : forall l,
  is_space c = false -> lstrip (l ++ [c]) = lstrip l ++ [c].
Proof.
  intros l Hc. induction l as [|a l IH]; cbn [app lstrip].
  - now rewrite Hc.
  - destruct (is_space a); [exact IH|reflexivity].
Qed.

Lemma lstrip_head (s : text) :
  lstrip s = [] \/ exists c r, lstrip s = c :: r /\ is_space c = false.
Proof.
  induction s as [|a s IH]; [now left|].
  cbn [lstrip]. destruct (is_space a) eqn:E; [exact IH|].
  right. now exists a, s.
Qed.

(** What [strip] returns is empty, or begins and ends with a character
    that is no white space. *)
Lemma strip_ends (s : text) :
  strip s = [] \/
  (exists c r, strip s = c :: r /\ is_space c = false) /\
  (exists r c, strip s = r ++ [c] /\ is_space c = false).
Proof.
  unfold strip, rstrip.
  destruct (lstrip_head s) as [->|(c & r & -> & Hc)]; [now left|].
  right. split.
  - cbn [rev]. rewrite (lstrip_snoc c _ Hc). rewrite rev_app_distr. cbn.
    now exists c, (rev (lstrip (rev r))).
  - destruct (lstrip_head (rev (c :: r))) as [E|(c' & r' & -> & Hc')].
    + cbn [rev] in E. rewrite (lstrip_snoc c _ Hc) in E.
      destruct (lstrip (rev r)); discriminate.
    + cbn [rev]. now exists (rev r'), c'.
Qed.

Lemma strip_line (s : text) : strip (strip s ++ [NL]) = strip s.
Proof.
  destruct (strip_ends s) as [->|[(c & r & E1 & Hc) (r' & c' & E2 & Hc')]];
    [reflexivity|].
  unfold strip at 1, rstrip.
  rewrite E1 at 1. cbn [app lstrip]. rewrite Hc.
  change (c :: r ++ [NL]) with ((c :: r) ++ [NL]). rewrite <- E1.
  rewrite rev_app_distr. cbn [rev app lstrip].
  change (is_space NL) with true. cbv iota.
  rewrite E2 at 1. rewrite rev_app_distr. cbn [rev app lstrip]. rewrite Hc'.
  change (c' :: rev r') with (rev [c'] ++ rev r'). rewrite <- rev_app_distr.
  rewrite rev_involutive. now symmetry.
Qed.

(** X20.  After a run that found the markers, the check succeeds: [main]
    with [--check], on the file as the run left it and for the same
    output of the listing, exits with 0. *)
Theorem check_passes_after_update (readme : text) (out : text)
    (content : text) (said : message) :
  clean (strip out) ->
  main false (Some readme) true (Some out) = (Some content, 0%Z, said) ->
  said <> MarkersNotFound ->
  main true (Some content) true (Some out) = (Some content, 0%Z, UpToDate).
Proof.
  intros C H Hs. unfold main in *. cbn [negb] in *. cbv zeta in H.
  destruct (update_readme readme (strip out)) as [[c1 ch] msg] eqn:U.
  injection H as -> ->.
  assert (S : exists before after,
             search_section content = Some (before, strip out ++ [NL], after)).
  { unfold update_readme in U.
    destruct (search_section readme) as [[[before middle] after]|] eqn:S0.
    - exists before, after. cbv zeta in U.
      destruct (text_eqb (START_MARKER ++ middle ++ END_MARKER)
                  (START_MARKER ++ strip out ++ NL :: END_MARKER)) eqn:E.
      + injection U as <- _ _. rewrite S0.
        apply text_eqb_eq in E. apply app_inv_head in E.
        replace (strip out ++ NL :: END_MARKER) with ((strip out ++ [NL]) ++ END_MARKER) in E
          by now rewrite <- app_assoc.
        apply app_inv_tail in E. now subst middle.
      + injection U as <- _ _.
        apply (search_section_updated _ _ _ _ _ S0 C).
    - injection U as _ _ <-. congruence. }
  destruct S as (before & after & S).
  rewrite S. cbv zeta. rewrite strip_line.
  replace (text_eqb (strip out) (strip out)) with true
    by (symmetry; now apply text_eqb_eq).
  reflexivity.
Qed.

Lemma check_passes_after_update_witness :
  main true
    (Some (text_of "# Title" ++ NL :: START_MARKER ++ text_of "dot-agents" ++ NL :: END_MARKER ++ [NL]))
    true (Some (text_of "dot-agents" ++ [NL])) =
  (Some (text_of "# Title" ++ NL :: START_MARKER ++ text_of "dot-agents" ++ NL :: END_MARKER ++ [NL]),
   0%Z, UpToDate).
Proof.
  apply (check_passes_after_update
           (text_of "# Title" ++ NL :: START_MARKER ++ text_of "old" ++ NL :: END_MARKER ++ [NL])
           (text_of "dot-agents" ++ [NL]) _ Updated).
  - vm_compute. reflexivity.
  - vm_compute. reflexivity.
  - discriminate.
Defined.
